(** * DTMF sandbox tools: bursty noise overlay and filename-token normalizers

    A shallow embedding of [tools/bursty_noise_overlay.py] together with the
    two [normalize_code] helpers of [tools/evaluate_dtmf.py] and
    [tools/analyse_harmonics.py], and the properties of the fixture generator
    checked against it.

    Conventions of the embedding:
    - Python [int] is [Z]; an [array("h")] is a [list Z] whose writes check
      the signed 16-bit range, as the typed array does.
    - Python [float] is idealised as a real number ([R]): sums, products,
      quotients, [math.sqrt] and [**] are the exact real operations, and
      [round] is round-half-to-even.  Overflow to infinity and NaN are
      outside this idealisation.
    - The module-level [random] generator, the file system and [sys.stderr]
      are threaded explicitly through a state-and-exception monad. *)

From Stdlib Require Import ZArith List String Ascii Bool Lia Reals Lra DecimalString.
From stdpp Require Import base gmap strings list.
From Stdlib Require Import Sorted.

Local Open Scope Z_scope.

(** ** Python primitives *)

Module Py.

(** The exceptions that the modelled code paths can raise.  [ValueError]
    carries its message; the others are told apart by class only. *)
Inductive exn : Type :=
| ValueError (msg : string)
| IndexError
| OverflowError
| FileNotFoundError (path : string)
| EOFError
| WaveError
| StructError.

Inductive result (A : Type) : Type :=
| Ok (a : A)
| Raise (e : exn).

Arguments Ok {A} a.
Arguments Raise {A} e.

(** [round(x)] on a float: nearest integer, ties to the even neighbour. *)
Definition round (x : R) : Z :=
  let f := Int_part x in
  let d := (x - IZR f)%R in
  if Rlt_dec d (1 / 2) then f
  else if Rlt_dec (1 / 2) d then f + 1
  else if Z.even f then f else f + 1.

(** [int(a * b / c)] for integers [a], [b] and a positive integer literal [c]:
    the true quotient is truncated toward zero.  The float quotient of two
    integers is correctly rounded, so below 2^53 its truncation is the integer
    truncation of the exact quotient. *)
Definition int_of_quotient (num den : Z) : Z := Z.quot num den.

(** [str(n)] for an integer. *)
Definition str_of_int (n : Z) : string := NilZero.string_of_int (Z.to_int n).

(** *** [str.replace] *)

(** The scan of [str.replace(old, new)] for a non-empty [old]: left to right,
    a match consumes [len(old)] characters ([skip] counts those still to be
    dropped) and matching resumes after it, so occurrences never overlap. *)
Fixpoint replace_scan (old new : string) (skip : nat) (s : string) : string :=
  match s with
  | EmptyString => EmptyString
  | String c rest =>
      match skip with
      | S k => replace_scan old new k rest
      | O =>
          if String.prefix old s
          then (new ++ replace_scan old new (Nat.pred (String.length old)) rest)%string
          else String c (replace_scan old new O rest)
      end
  end.

(** With an empty [old], Python inserts [new] before every character and at
    the end. *)
Fixpoint replace_empty (new s : string) : string :=
  match s with
  | EmptyString => new
  | String c rest => (new ++ String c (replace_empty new rest))%string
  end.

Definition str_replace (s old new : string) : string :=
  match old with
  | EmptyString => replace_empty new s
  | _ => replace_scan old new O s
  end.


(** [c in s] for a single character [c] *)
Fixpoint has_char (c : ascii) (s : string) : bool :=
  match s with
  | EmptyString => false
  | String a rest => Ascii.eqb a c || has_char c rest
  end.

(** *** [array("h")] *)

Definition INT16_MIN : Z := -32768.
Definition INT16_MAX : Z := 32767.

Definition is_int16 (v : Z) : Prop := INT16_MIN <= v <= INT16_MAX.

Definition int16b (v : Z) : bool := (INT16_MIN <=? v) && (v <=? INT16_MAX).

(** Index normalisation of a sequence subscript: a negative index counts
    from the end; anything still outside [0, len) is an error. *)
Definition norm_index (len i : Z) : option nat :=
  let j := if i <? 0 then i + len else i in
  if (0 <=? j) && (j <? len) then Some (Z.to_nat j) else None.

(** [a[i]] *)
Definition array_getitem (a : list Z) (i : Z) : result Z :=
  match norm_index (Z.of_nat (length a)) i with
  | None => Raise IndexError
  | Some j =>
      match a !! j with
      | Some v => Ok v
      | None => Raise IndexError
      end
  end.

(** [a[i] = v]: the index is checked first, then the value range. *)
Definition array_setitem (a : list Z) (i v : Z) : result (list Z) :=
  match norm_index (Z.of_nat (length a)) i with
  | None => Raise IndexError
  | Some j => if int16b v then Ok (<[j:=v]> a) else Raise OverflowError
  end.

(** [a.append(v)] *)
Definition array_append (a : list Z) (v : Z) : result (list Z) :=
  if int16b v then Ok (a ++ [v]) else Raise OverflowError.

(** [array("h", [0] * n)]; a non-positive [n] gives the empty array. *)
Definition array_zeros (n : Z) : list Z := replicate (Z.to_nat n) 0.

(** [range(start, stop)] *)
Definition range (start stop : Z) : list Z := seqZ start (stop - start).

(** [enumerate(xs)] *)
Definition enumerate {A : Type} (xs : list A) : list (Z * A) :=
  zip (seqZ 0 (Z.of_nat (length xs))) xs.

(** *** Paths *)

(** A [pathlib.Path] as its sequence of parts. *)
Definition Path : Type := list string.

Definition path_str (p : Path) : string :=
  match p with
  | "/"%string :: rest => ("/" ++ String.concat "/" rest)%string
  | _ => String.concat "/" p
  end.

(** [p.parent] *)
Definition path_parent (p : Path) : Path :=
  match p with
  | ["/"%string] => p
  | _ => removelast p
  end.

(** The directories [p.mkdir(parents=True, exist_ok=True)] makes sure exist:
    [p] and every ancestor of it. *)
Definition path_ancestors (p : Path) : list Path :=
  map (fun n => take n p) (seq 1 (length p)).

End Py.

Export Py.

(** ** The world the tools run in *)

Module Sys.

(** What [wave.open(path, "rb")] reports for a container it accepts: the
    header fields behind [getnchannels()], [getsampwidth()] (in bytes) and
    [getframerate()], and the frames that
    [array("h").frombytes(readframes(getnframes()))] decodes from a 16-bit
    mono data chunk. *)
Record WavFile : Type := mkWav {
  nchannels : Z;
  sampwidth : Z;
  framerate : Z;
  frames : list Z
}.

(** A file is a WAV container or the zero-byte file that an aborted
    [wave.open(path, "wb")] leaves behind. *)
Inductive File : Type :=
| Wav (w : WavFile)
| EmptyFile.

(** The [random] module: two fixed sequences of raw variates, uniform
    naturals and standard normals, and the number of draws made so far. *)
Record Random : Type := mkRandom {
  uniform : nat -> Z;
  normal : nat -> R;
  consumed : nat
}.

Record World : Type := mkWorld {
  fs : gmap Path File;
  dirs : gset Path;
  rng : Random;
  stderr : list string
}.

(** State and exceptions: a computation maps a world to a result and the
    world at the point where it returned or raised. *)
Definition M (A : Type) : Type := World -> result A * World.

Definition ret {A : Type} (a : A) : M A := fun w => (Ok a, w).

Definition raise {A : Type} (e : exn) : M A := fun w => (Raise e, w).

Definition bind {A B : Type} (m : M A) (k : A -> M B) : M B :=
  fun w =>
    match m w with
    | (Ok a, w') => k a w'
    | (Raise e, w') => (Raise e, w')
    end.

Definition lift {A : Type} (r : result A) : M A := fun w => (r, w).

Notation "'let*' x ':=' m 'in' k" := (bind m (fun x => k))
  (at level 10, x pattern, m at level 100, k at level 200).

(** A [for] loop over [xs] whose body updates the loop-carried value. *)
Fixpoint for_each {A S : Type} (xs : list A) (body : A -> S -> M S) (s : S) : M S :=
  match xs with
  | [] => ret s
  | x :: rest => let* s' := body x s in for_each rest body s'
  end.

Definition next_draw (g : Random) : Random :=
  mkRandom (uniform g) (normal g) (S (consumed g)).

Definition set_rng (g : Random) (w : World) : World :=
  mkWorld (fs w) (dirs w) g (stderr w).

(** [random.randint(a, b)]: an integer of [a..b], both ends included; an
    empty range is a [ValueError] (its message, which changes between Python
    versions, is abbreviated). *)
Definition randint (a b : Z) : M Z :=
  fun w =>
    if b <? a then (Raise (ValueError "empty range for randrange()"), w)
    else (Ok (a + uniform (rng w) (consumed (rng w)) mod (b - a + 1)),
          set_rng (next_draw (rng w)) w).

(** [random.gauss(mu, sigma)] *)
Definition gauss (mu sigma : R) : M R :=
  fun w =>
    (Ok (mu + sigma * normal (rng w) (consumed (rng w)))%R,
     set_rng (next_draw (rng w)) w).

(** [print(msg, file=sys.stderr)] *)
Definition print_stderr (msg : string) : M unit :=
  fun w => (Ok tt, mkWorld (fs w) (dirs w) (rng w) (stderr w ++ [msg])).

(** [p.mkdir(parents=True, exist_ok=True)] *)
Definition mkdir_parents (p : Path) : M unit :=
  fun w => (Ok tt, mkWorld (fs w) (dirs w ∪ list_to_set (path_ancestors p)) (rng w) (stderr w)).

(** [wave.open(str(path), "rb")]: the reader of an existing container. *)
Definition wave_open_rb (path : Path) : M WavFile :=
  fun w =>
    match fs w !! path with
    | None => (Raise (FileNotFoundError (path_str path)), w)
    | Some EmptyFile => (Raise EOFError, w)
    | Some (Wav f) => (Ok f, w)
    end.

(** [wave.open(str(path), "wb")]: the file is created or truncated at once. *)
Definition wave_open_wb (path : Path) : M unit :=
  fun w => (Ok tt, mkWorld (<[path := EmptyFile]> (fs w)) (dirs w) (rng w) (stderr w)).

(** [setframerate(framerate)] of the writer refuses a non-positive rate with
    a [wave.Error]; leaving the [with] block then closes the writer, which
    raises [wave.Error] again because no rate was set. *)
Definition wave_setframerate (rate : Z) : M unit :=
  if rate <=? 0 then raise WaveError else ret tt.

(** The RIFF header packs the file size, the sample rate and the byte rate
    into unsigned 32-bit fields; [struct.pack] refuses a value that does not
    fit. *)
Definition fits_uint32 (v : Z) : bool := (0 <=? v) && (v <=? 4294967295).

Definition header_fits (nch width rate : Z) (nframes : nat) : bool :=
  fits_uint32 (36 + Z.of_nat nframes * nch * width)
  && fits_uint32 rate
  && fits_uint32 (nch * rate * width).

(** [writeframes(data)] followed by the close at the end of the [with]
    block: the header and the frames are on disk, unless the header cannot
    be packed, which leaves the file empty. *)
Definition wave_writeframes (path : Path) (nch width rate : Z) (data : list Z) : M unit :=
  if header_fits nch width rate (length data) then
    fun w => (Ok tt, mkWorld (<[path := Wav (mkWav nch width rate data)]> (fs w))
                             (dirs w) (rng w) (stderr w))
  else raise StructError.

End Sys.

Export Sys.

(** ** [tools/bursty_noise_overlay.py] *)

Module Overlay.

(** [read_pcm16_mono(path)] *)
Definition read_pcm16_mono (path : Path) : M (Z * list Z) :=
  let* wf := wave_open_rb path in
  if negb (nchannels wf =? 1) then
    raise (ValueError (path_str path ++ " is not mono"))
  else if negb (sampwidth wf =? 2) then
    raise (ValueError (path_str path ++ " is not 16-bit PCM"))
  else
    ret (framerate wf, frames wf).

(** [write_pcm16_mono(path, framerate, samples)] *)
Definition write_pcm16_mono (path : Path) (rate : Z) (samples : list Z) : M unit :=
  let* _ := wave_open_wb path in
  let* _ := wave_setframerate rate in
  wave_writeframes path 1 2 rate samples.

(** [rms(samples)]: the accumulator starts at [0.0] and adds the square of
    every sample; an empty buffer has RMS [0.0]. *)
Definition sum_squares (samples : list Z) : R :=
  fold_left (fun acc s => (acc + IZR s * IZR s)%R) samples 0%R.

Definition rms (samples : list Z) : R :=
  match samples with
  | [] => 0%R
  | _ => sqrt (sum_squares samples / INR (length samples))
  end.

(** [clamp_int16(value)] *)
Definition clamp_int16 (value : R) : Z :=
  Z.max (-32768) (Z.min 32767 (round value)).

(** A burst of the noise track: the drawn duration in milliseconds and the
    half-open sample interval [start, stop) it covers. *)
Record Burst : Type := mkBurst {
  dur_ms : Z;
  start : Z;
  stop : Z
}.

(** [dur_samples = int(framerate * dur_ms / 1000)] *)
Definition dur_samples (rate ms : Z) : Z := int_of_quotient (rate * ms) 1000.

(** The guard [dur_samples <= 0 or dur_samples >= length] of the loop. *)
Definition skipped (length d : Z) : bool := (d <=? 0) || (length <=? d).

(** The placement of one burst (the draws and the guard of the loop body of
    [build_noise_track]): [None] when the iteration hits [continue]. *)
Definition place_burst (length rate : Z) : M (option Burst) :=
  let* ms := randint 200 400 in
  let d := dur_samples rate ms in
  if skipped length d then ret None
  else
    let* s := randint 0 (length - d) in
    ret (Some (mkBurst ms s (s + d))).

(** The loop body of the closure [fill_white]. *)
Definition white_body : Z -> list Z -> M (list Z) :=
  fun i out =>
    let* g := gauss 0 (0.35 * 32767) in
    lift (array_setitem out i (clamp_int16 g)).

(** The closure [fill_white(start, end)], acting on [output]. *)
Definition fill_white (first last : Z) (output : list Z) : M (list Z) :=
  for_each (range first last) white_body output.

(** The loop body of the closure [fill_from_source]:
    [output[pos] = noise_source[idx % src_len]]. *)
Definition source_body (src : list Z) : Z * Z -> list Z -> M (list Z) :=
  fun '(idx, pos) out =>
    let src_len := Z.of_nat (length src) in
    let* v := lift (array_getitem src (idx mod src_len)) in
    lift (array_setitem out pos v).

(** The closure [fill_from_source(start, end)], acting on [output].  Both
    [None] and an empty array are falsy for [if not noise_source]. *)
Definition fill_from_source (noise_source : option (list Z)) (first last : Z)
    (output : list Z) : M (list Z) :=
  match noise_source with
  | None => ret output
  | Some [] => ret output
  | Some src =>
      let src_len := Z.of_nat (length src) in
      if src_len =? 0 then ret output
      else for_each (enumerate (range first last)) (source_body src) output
  end.

(** One iteration of [for _ in range(bursts)]. *)
Definition burst_step (length rate : Z) (mode : string)
    (noise_source : option (list Z)) (output : list Z) : M (list Z) :=
  let* b := place_burst length rate in
  match b with
  | None => ret output
  | Some b =>
      if String.eqb mode "white" then fill_white (start b) (stop b) output
      else fill_from_source noise_source (start b) (stop b) output
  end.

(** [build_noise_track(length, framerate, mode, noise_source)] *)
Definition build_noise_track (length rate : Z) (mode : string)
    (noise_source : option (list Z)) : M (list Z) :=
  let* bursts := randint 2 4 in
  let output := array_zeros length in
  for_each (range 0 bursts)
    (fun _ out => burst_step length rate mode noise_source out)
    output.

(** The zero test on a measured RMS with its epsilon substitution and
    warning: [if x == 0: x = 1e-6; print(warning, file=sys.stderr)]. *)
Definition EPSILON : R := 1e-6.

Definition guard_silent (x : R) (warning : string) : M R :=
  if Req_dec_T x 0 then
    let* _ := print_stderr warning in
    ret EPSILON
  else ret x.

Definition BASE_SILENT : string := "Warning: base is silent; using epsilon to continue".

Definition NOISE_SILENT : string := "Warning: noise track is silent; using epsilon to continue".

(** The calibration of [mix_bursty_noise]: from the two measured RMS values
    to the linear [scale] applied to the noise track. *)
Definition calibrate (base_rms noise_rms snr_db : R) : M R :=
  let* base_rms := guard_silent base_rms BASE_SILENT in
  let* noise_rms := guard_silent noise_rms NOISE_SILENT in
  let target_noise_rms := (base_rms / Rpower 10 (snr_db / 20))%R in
  let scale := (target_noise_rms / noise_rms)%R in
  ret scale.

(** One mixed sample: [clamp_int16(float(b) + float(n) * scale)]. *)
Definition mix_sample (scale : R) (b n : Z) : Z :=
  clamp_int16 (IZR b + IZR n * scale).

(** The mixing loop over [zip(base_samples, noise_track)]. *)
Definition mix_samples (base_samples noise_track : list Z) (scale : R) : M (list Z) :=
  for_each (zip base_samples noise_track)
    (fun '(b, n) mixed => lift (array_append mixed (mix_sample scale b n)))
    [].

(** The loading of the noise source in [mix_bursty_noise]. *)
Definition load_noise_source (rate : Z) (noise_mode : string)
    (noise_path : option Path) : M (option (list Z)) :=
  if negb (String.eqb noise_mode "white") then
    match noise_path with
    | None => raise (ValueError "noise_path is required for non-white noise")
    | Some p =>
        let* (noise_rate, src) := read_pcm16_mono p in
        if negb (noise_rate =? rate) then
          raise (ValueError ("Sample rate mismatch: base=" ++ str_of_int rate
                             ++ "Hz noise=" ++ str_of_int noise_rate ++ "Hz"))
        else ret (Some src)
    end
  else ret None.

(** [mix_bursty_noise(base_path, out_path, snr_db, noise_mode, noise_path)] *)
Definition mix_bursty_noise (base_path out_path : Path) (snr_db : R)
    (noise_mode : string) (noise_path : option Path) : M unit :=
  let* (rate, base_samples) := read_pcm16_mono base_path in
  let* noise_source := load_noise_source rate noise_mode noise_path in
  let* noise_track :=
    build_noise_track (Z.of_nat (length base_samples)) rate noise_mode noise_source in
  let* scale := calibrate (rms base_samples) (rms noise_track) snr_db in
  let* mixed := mix_samples base_samples noise_track scale in
  let* _ := mkdir_parents (path_parent out_path) in
  write_pcm16_mono out_path rate mixed.

End Overlay.

(** ** [tools/evaluate_dtmf.py] *)

Module Evaluate.

(** The dict [CODE_REPLACEMENTS], in insertion order. *)
Definition CODE_REPLACEMENTS : list (string * string) :=
  [("star", "*"); ("hash", "#")]%string.

(** [normalize_code(raw)]: one [replace] per item of the dict. *)
Definition normalize_code (raw : string) : string :=
  fold_left (fun code '(key, value) => str_replace code key value)
    CODE_REPLACEMENTS raw.

End Evaluate.

(** ** [tools/analyse_harmonics.py] *)

Module Harmonics.

(** [normalize_code(token)] *)
Definition normalize_code (token : string) : string :=
  str_replace (str_replace token "star" "*") "hash" "#".

End Harmonics.

(** ** Vocabulary of the statements *)

Module Props.

Import Overlay.

(** Worlds that differ at most in the state of the random generator: same
    files, same directories, same standard error. *)
Definition rng_only (w w' : World) : Prop :=
  fs w' = fs w /\ dirs w' = dirs w /\ stderr w' = stderr w.

(** A noise source, when there is one, is an [array("h")]: every item is a
    signed 16-bit value. *)
Definition source_ok (noise_source : option (list Z)) : Prop :=
  match noise_source with
  | Some src => Forall is_int16 src
  | None => True
  end.

(** [path] holds a mono 16-bit PCM container [f]. *)
Definition pcm16_mono_file (w : World) (path : Path) (f : WavFile) : Prop :=
  fs w !! path = Some (Wav f) /\ nchannels f = 1 /\ sampwidth f = 2.

(** A sample rate and a frame count that the writer accepts. *)
Definition writable (rate : Z) (nframes : nat) : Prop :=
  0 < rate /\ header_fits 1 2 rate nframes = true.

(** The values the mixing loop appends, in order. *)
Definition mix_values (base_samples noise_track : list Z) (scale : R) : list Z :=
  map (fun '(b, n) => mix_sample scale b n) (zip base_samples noise_track).




End Props.

Import Overlay Props.

(** ** Concrete inputs *)

Module Inputs.

(** A generator whose uniform variates start 30, 30, 3, 100, 7, 250, 2 and
    continue with 5, and whose normal variates are all 0. *)
Definition gen : Random :=
  mkRandom (fun n => nth n [30; 30; 3; 100; 7; 250; 2] 5) (fun _ => 0%R) 0.

(** One second of silence at 8000 Hz is too long to write out; four silent
    frames do for the base, three frames for a recorded noise source. *)
Definition base_wav : WavFile := mkWav 1 2 8000 [0; 0; 0; 0].

Definition noise_wav : WavFile := mkWav 1 2 8000 [5; -6; 7].

Definition fast_noise_wav : WavFile := mkWav 1 2 11025 [5; -6; 7].

Definition stereo_wav : WavFile := mkWav 2 2 8000 [1; 2; 3; 4].

Definition files : gmap Path File :=
  <[ ["in"; "base.wav"]%string := Wav base_wav ]>
  (<[ ["in"; "noise.wav"]%string := Wav noise_wav ]>
  (<[ ["in"; "fast.wav"]%string := Wav fast_noise_wav ]>
  (<[ ["in"; "stereo.wav"]%string := Wav stereo_wav ]> ∅))).

Definition world : World := mkWorld files ∅ gen [].

End Inputs.

(** ** Vocabulary for the random draws *)

Module Draws.

(** The world after [n] more draws from the random generator. *)
Definition advance (n : nat) (w : World) : World :=
  set_rng (mkRandom (uniform (rng w)) (normal (rng w)) (consumed (rng w) + n)%nat) w.

End Draws.

(** ** [tools/wav_concat.py] *)

Module Concat.

(** How a call of [concat_wavs] ends: it returns, it raises one of the
    modelled exceptions, or its [assert] fails. *)
Inductive outcome : Type :=
| Done
| Failed (e : exn)
| AssertionFailed.

Definition params_eqb (p q : Z * Z * Z) : bool :=
  let '(a, b, c) := p in
  let '(a', b', c') := q in
  (a =? a') && (b =? b') && (c =? c').

(** [str] of the tuple [(nchannels, sampwidth, framerate)]. *)
Definition str_of_params (p : Z * Z * Z) : string :=
  let '(a, b, c) := p in
  ("(" ++ str_of_int a ++ ", " ++ str_of_int b ++ ", " ++ str_of_int c ++ ")")%string.

(** The body of [for path in inputs], acting on [params] and [frames]. *)
Definition read_input (path : Path) (acc : option (Z * Z * Z) * list (list Z))
    : M (option (Z * Z * Z) * list (list Z)) :=
  let '(params, chunks) := acc in
  let* wf := wave_open_rb path in
  if negb (nchannels wf =? 1) then
    raise (ValueError (path_str path ++ " is not mono"))
  else if negb (sampwidth wf =? 2) then
    raise (ValueError (path_str path ++ " is not 16-bit PCM"))
  else
    let current_params := (nchannels wf, sampwidth wf, framerate wf) in
    match params with
    | None => ret (Some current_params, chunks ++ [frames wf])
    | Some p =>
        if negb (params_eqb p current_params) then
          raise (ValueError ("Input format mismatch: " ++ str_of_params current_params
                             ++ " does not match " ++ str_of_params p))
        else ret (params, chunks ++ [frames wf])
    end.

(** [out.writeframes(chunk)] on a writer that stays open: the first call
    writes the header, every later one appends and patches the sizes in the
    header.  When the sizes cannot be packed the call raises and the file
    still reads as it did before the call. *)
Definition wave_writeframes_more (path : Path) (nch width rate : Z) (chunk : list Z)
    : M unit :=
  fun w =>
    let written :=
      match fs w !! path with
      | Some (Wav f) => frames f
      | _ => []
      end in
    if header_fits nch width rate (length (written ++ chunk)) then
      (Ok tt, mkWorld (<[path := Wav (mkWav nch width rate (written ++ chunk))]> (fs w))
                      (dirs w) (rng w) (stderr w))
    else (Raise StructError, w).

(** [setnchannels(n)] and [setsampwidth(n)] of the writer: a [wave.Error]
    for a channel count below 1 or a sample width outside 1..4. *)
Definition wave_setnchannels (nch : Z) : M unit :=
  if nch <? 1 then raise WaveError else ret tt.

Definition wave_setsampwidth (width : Z) : M unit :=
  if (width <? 1) || (4 <? width) then raise WaveError else ret tt.

(** The [with wave.open(str(output), "wb") as out] block. *)
Definition write_output (output : Path) (params : Z * Z * Z) (chunks : list (list Z))
    : M unit :=
  let '(nch, width, rate) := params in
  let* _ := wave_open_wb output in
  let* _ := wave_setnchannels nch in
  let* _ := wave_setsampwidth width in
  let* _ := wave_setframerate rate in
  for_each chunks (fun chunk _ => wave_writeframes_more output nch width rate chunk) tt.

(** [concat_wavs(output, inputs)] *)
Definition concat_wavs (output : Path) (inputs : list Path) : World -> outcome * World :=
  fun w =>
    match inputs with
    | [] => (Failed (ValueError "No input WAVs provided"), w)
    | _ =>
        match for_each inputs read_input (None, []) w with
        | (Raise e, w1) => (Failed e, w1)
        | (Ok (None, _), w1) => (AssertionFailed, w1)
        | (Ok (Some params, chunks), w1) =>
            match (let* _ := mkdir_parents (path_parent output) in
                   write_output output params chunks) w1 with
            | (Ok _, w2) => (Done, w2)
            | (Raise e, w2) => (Failed e, w2)
            end
        end
    end.

End Concat.

(** ** More string primitives *)

Module PyStr.

(** [s.startswith(prefix)] *)
Definition startswith (s pre : string) : bool := String.prefix pre s.

(** [bool(s)]: a string is truthy unless it is empty. *)
Definition truthy (s : string) : bool := negb (String.eqb s "").

(** [s[n:]] for [0 <= n] *)
Fixpoint str_drop (n : nat) (s : string) : string :=
  match n, s with
  | O, _ => s
  | S k, EmptyString => EmptyString
  | S k, String _ rest => str_drop k rest
  end.

(** The scan of [s.split(sep)] for a non-empty separator, given as its
    first character and the rest: left to right, [cur] holds the piece being
    read, and a match closes the piece and consumes the separator ([skip]
    counts its characters still to drop). *)
Fixpoint split_scan (sep : string) (skip : nat) (cur s : string) : list string :=
  match s with
  | EmptyString => [cur]
  | String c rest =>
      match skip with
      | S k => split_scan sep k cur rest
      | O =>
          if String.prefix sep s
          then cur :: split_scan sep (Nat.pred (String.length sep)) EmptyString rest
          else split_scan sep O (cur ++ String c EmptyString) rest
      end
  end.

Definition str_split (s : string) (sep_head : ascii) (sep_tail : string) : list string :=
  split_scan (String sep_head sep_tail) O EmptyString s.

End PyStr.

Export PyStr.

(** ** [tools/evaluate_dtmf.py], the harness *)

Module Harness.

(** [SampleMetadata], without the path it was parsed from. *)
Record SampleMetadata : Type := mkMeta {
  condition : string;
  code : string;
  snr : option string;
  noise_type : option string
}.

(** The loop body of [parse_metadata], acting on [code], [snr] and
    [noise_type]. *)
Definition parse_token (token : string)
    (acc : option string * option string * option string)
    : option string * option string * option string :=
  let '(code, snr, noise_type) := acc in
  if startswith token "code_" then
    (Some (Evaluate.normalize_code (str_drop (String.length "code_") token)), snr, noise_type)
  else if startswith token "snr_" then
    (code, Some (str_drop (String.length "snr_") token), noise_type)
  else if startswith token "noise_" then
    (code, snr, Some (str_drop (String.length "noise_") token))
  else if String.eqb token "noise_only" || startswith token "silence" then
    (Some EmptyString, snr, noise_type)
  else (code, snr, noise_type).

(** [parse_metadata(path)], from [stem = path.stem] on. *)
Definition parse_metadata (stem : string) : SampleMetadata :=
  let tokens := str_split stem "_" "_" in
  let condition := match tokens with t :: _ => t | [] => EmptyString end in
  let '(code, snr, noise_type) := fold_left (fun acc t => parse_token t acc) tokens (None, None, None) in
  let code := match code with None => EmptyString | Some c => c end in
  mkMeta condition code snr noise_type.

(** [classify_error(expected, decoded)] *)
Definition classify_error (expected decoded : string) : string :=
  if String.eqb expected decoded then ""
  else if negb (truthy expected) && truthy decoded then "false positive"
  else if truthy expected && negb (truthy decoded) then "missing digits"
  else if startswith expected decoded then "missing digits"
  else if startswith decoded expected then "extra digits"
  else "wrong digits".

(** An inner dict [{"total": ..., "success": ...}] of [stats]. *)
Record Bucket : Type := mkBucket {
  total : Z;
  success : Z
}.

(** [b = stats.setdefault(key, {"total": 0, "success": 0}); b["total"] += 1;
    if success: b["success"] += 1] *)
Definition bump (key : string) (ok : bool) (stats : gmap string Bucket) : gmap string Bucket :=
  let b := match stats !! key with Some b => b | None => mkBucket 0 0 end in
  let b := mkBucket (total b + 1) (success b) in
  let b := if ok then mkBucket (total b) (success b + 1) else b in
  <[key := b]> stats.

(** The second key of [record_stats]: [f"{condition}@{snr}"] for a truthy
    [snr], [f"{condition}@"] otherwise. *)
Definition snr_key (condition : string) (snr : option string) : string :=
  match snr with
  | Some s => if truthy s then (condition ++ "@" ++ s)%string else (condition ++ "@")%string
  | None => (condition ++ "@")%string
  end.

(** [record_stats(stats, condition, snr, success)] *)
Definition record_stats (stats : gmap string Bucket) (condition : string)
    (snr : option string) (ok : bool) : gmap string Bucket :=
  let stats := bump condition ok stats in
  bump (snr_key condition snr) ok stats.

End Harness.

(** ** [tools/analyse_harmonics.py], the metadata parser *)

Module Reporter.

(** The loop body of [parse_metadata], acting on [code]. *)
Definition parse_token (token : string) (code : string) : string :=
  if startswith token "code_" then
    Harmonics.normalize_code (str_drop (String.length "code_") token)
  else if String.eqb token "noise_only" || startswith token "silence" then EmptyString
  else code.

(** [parse_metadata(path)], from [stem = path.stem] on: the pair of the
    values under ["code"] and ["stem"]. *)
Definition parse_metadata (stem : string) : string * string :=
  let tokens := str_split stem "_" "_" in
  let code := fold_left (fun code t => parse_token t code) tokens EmptyString in
  (code, stem).

End Reporter.

(** ** Vocabulary for the harness statistics *)

Module Tally.

Import Harness.

(** What the loop of [main] does to [stats]: one [record_stats] per sample,
    given as (condition, snr, success). *)
Definition record_all (samples : list (string * option string * bool))
    (stats : gmap string Bucket) : gmap string Bucket :=
  fold_left (fun st '(c, s, ok) => record_stats st c s ok) samples stats.

(** How often [key] is bumped by the samples: once for each sample whose
    condition it is, once for each sample whose second key it is. *)
Definition bumps (key : string) (samples : list (string * option string * bool)) : Z :=
  Z.of_nat (length (List.filter (fun '(c, _, _) => String.eqb c key) samples))
  + Z.of_nat (length (List.filter (fun '(c, s, _) => String.eqb (snr_key c s) key) samples)).

(** The same count over the successful samples only. *)
Definition wins (key : string) (samples : list (string * option string * bool)) : Z :=
  bumps key (List.filter (fun '(_, _, ok) => ok) samples).

(** The counters stored under [key]; an absent key counts as zero. *)
Definition total_of (stats : gmap string Bucket) (key : string) : Z :=
  match stats !! key with Some b => total b | None => 0 end.

Definition success_of (stats : gmap string Bucket) (key : string) : Z :=
  match stats !! key with Some b => success b | None => 0 end.

(** The code held by the accumulator of the harness's [parse_metadata]
    loop, with the final [if code is None: code = ""] applied. *)
Definition code_of (acc : option string * option string * option string) : string :=
  match acc with (Some c, _, _) => c | (None, _, _) => EmptyString end.

End Tally.

(** ** [tools/analyse_harmonics.py], the percentile *)

Module Stats.

(** A float result: a real number or NaN. *)
Inductive pyfloat : Type :=
| Finite (x : R)
| NaN.

(** [sorted(values)] on floats: ascending order.  Equal reals are the same
    real, so the order of insertion does not show in the result. *)
Fixpoint insert_sorted (x : R) (l : list R) : list R :=
  match l with
  | [] => [x]
  | y :: rest => if Rle_dec x y then x :: l else y :: insert_sorted x rest
  end.

Definition sorted (values : list R) : list R := fold_right insert_sorted [] values.

(** [int(x)] on a float: truncation toward zero. *)
Definition int_of_float (x : R) : Z :=
  if Rle_dec 0 x then Int_part x else - Int_part (- x).

(** [l[i]] on a list: a negative index counts from the end. *)
Definition list_getitem (l : list R) (i : Z) : result R :=
  match norm_index (Z.of_nat (length l)) i with
  | None => Raise IndexError
  | Some j =>
      match l !! j with
      | Some v => Ok v
      | None => Raise IndexError
      end
  end.

(** [percentile(values, pct)] *)
Definition percentile (values : list R) (pct : R) : result pyfloat :=
  match values with
  | [] => Ok NaN
  | [v] => Ok (Finite v)
  | _ =>
      let ordered := sorted values in
      let n := Z.of_nat (length ordered) in
      let k := (IZR (n - 1) * pct / 100)%R in
      let lower := int_of_float k in
      let upper := Z.min (lower + 1) (n - 1) in
      let weight := (k - IZR lower)%R in
      match list_getitem ordered lower with
      | Raise e => Raise e
      | Ok a =>
          match list_getitem ordered upper with
          | Raise e => Raise e
          | Ok b => Ok (Finite (a * (1 - weight) + b * weight))
          end
      end
  end.

End Stats.

(** * Properties *)

(** ** Python primitives *)

Lemma Int_part_bounds (x : R) : (IZR (Int_part x) <= x < IZR (Int_part x) + 1)%R.
Proof.
  unfold Int_part. rewrite minus_IZR.
  destruct (archimed x) as [Hgt Hle]. lra.
Qed.

Lemma Int_part_unique (x : R) (n : Z) :
  (IZR n <= x < IZR n + 1)%R -> Int_part x = n.
Proof.
  intros [Hlo Hhi]. unfold Int_part.
  rewrite <- (up_tech x n); [lia | exact Hlo | rewrite plus_IZR; exact Hhi].
Qed.

Lemma round_near (x : R) (n : Z) :
  (IZR n - 1 / 2 < x < IZR n + 1 / 2)%R -> round x = n.
Proof.
  intros [Hlo Hhi]. unfold round.
  destruct (Rle_lt_dec (IZR n) x) as [Hge | Hlt].
  - rewrite (Int_part_unique x n) by lra.
    destruct (Rlt_dec (x - IZR n) (1 / 2)) as [_ | Hn]; [reflexivity | lra].
  - rewrite (Int_part_unique x (n - 1)) by (rewrite minus_IZR; lra).
    rewrite minus_IZR.
    destruct (Rlt_dec (x - (IZR n - 1)) (1 / 2)) as [Hd | _]; [lra |].
    destruct (Rlt_dec (1 / 2) (x - (IZR n - 1))) as [_ | Hn]; [lia | lra].
Qed.

Lemma clamp_int16_range (x : R) : is_int16 (clamp_int16 x).
Proof. unfold is_int16, clamp_int16, INT16_MIN, INT16_MAX. lia. Qed.

Lemma int16b_true (v : Z) : is_int16 v -> int16b v = true.
Proof. unfold is_int16, int16b. intros. apply andb_true_intro. split; lia. Qed.

Lemma norm_index_in_range (len i : Z) :
  0 <= i < len -> norm_index len i = Some (Z.to_nat i).
Proof.
  intros Hi. unfold norm_index.
  destruct (Z.ltb_spec i 0) as [Hneg | _]; [lia |].
  destruct (Z.leb_spec 0 i), (Z.ltb_spec i len); simpl; try lia. reflexivity.
Qed.

Lemma array_setitem_ok (a : list Z) (i v : Z) :
  0 <= i < Z.of_nat (length a) -> is_int16 v ->
  array_setitem a i v = Ok (<[Z.to_nat i := v]> a).
Proof.
  intros Hi Hv. unfold array_setitem.
  rewrite norm_index_in_range by exact Hi. rewrite int16b_true by exact Hv. reflexivity.
Qed.

Lemma array_getitem_ok (a : list Z) (i : Z) :
  0 <= i < Z.of_nat (length a) ->
  exists v, a !! Z.to_nat i = Some v /\ array_getitem a i = Ok v.
Proof.
  intros Hi. unfold array_getitem. rewrite norm_index_in_range by exact Hi.
  destruct (lookup_lt_is_Some_2 a (Z.to_nat i)) as [v Hv]; [lia |].
  exists v. rewrite Hv. split; reflexivity.
Qed.

Lemma randint_ok (a b : Z) (w : World) :
  a <= b ->
  exists v, a <= v <= b /\
    randint a b w = (Ok v, set_rng (next_draw (rng w)) w).
Proof.
  intros Hab. unfold randint.
  destruct (Z.ltb_spec b a) as [Hlt | _]; [lia |].
  eexists. split; [| reflexivity].
  pose proof (Z.mod_pos_bound (uniform (rng w) (consumed (rng w))) (b - a + 1)). lia.
Qed.

Lemma bind_ok {A B : Type} (m : M A) (k : A -> M B) (w w' : World) (a : A) :
  m w = (Ok a, w') -> bind m k w = k a w'.
Proof. intros H. unfold bind. rewrite H. reflexivity. Qed.

Lemma bind_raise {A B : Type} (m : M A) (k : A -> M B) (w w' : World) (e : exn) :
  m w = (Raise e, w') -> bind m k w = (Raise e, w').
Proof. intros H. unfold bind. rewrite H. reflexivity. Qed.

Lemma skipped_spec (len d : Z) : skipped len d = true <-> d <= 0 \/ len <= d.
Proof.
  unfold skipped. rewrite orb_true_iff, !Z.leb_le. reflexivity.
Qed.

Lemma dur_samples_truncates (rate ms : Z) :
  let q := (IZR rate * IZR ms / 1000)%R in
  let d := dur_samples rate ms in
  (0 <= rate * ms -> (IZR d <= q < IZR d + 1)%R) /\
  (rate * ms <= 0 -> (IZR d - 1 < q <= IZR d)%R).
Proof.
  intros q d. subst q d. unfold dur_samples, int_of_quotient.
  pose proof (Z.quot_rem' (rate * ms) 1000) as Hqr.
  set (n := rate * ms) in *.
  assert (Hn : (IZR rate * IZR ms)%R = IZR n) by (subst n; rewrite mult_IZR; reflexivity).
  rewrite Hn. clear Hn.
  split; intros Hs.
  - pose proof (Z.rem_bound_pos n 1000 Hs ltac:(lia)) as Hr.
    assert (H1 : (IZR n = 1000 * IZR (n ÷ 1000) + IZR (Z.rem n 1000))%R).
    { rewrite <- mult_IZR, <- plus_IZR. f_equal. exact Hqr. }
    assert (H2 : (0 <= IZR (Z.rem n 1000) < 1000)%R).
    { split; [apply IZR_le | apply IZR_lt]; lia. }
    lra.
  - pose proof (Z.rem_bound_pos_neg n 1000 ltac:(lia) Hs) as Hr.
    assert (H1 : (IZR n = 1000 * IZR (n ÷ 1000) + IZR (Z.rem n 1000))%R).
    { rewrite <- mult_IZR, <- plus_IZR. f_equal. exact Hqr. }
    assert (H2 : (-1000 < IZR (Z.rem n 1000) <= 0)%R).
    { split; [apply IZR_lt | apply IZR_le]; lia. }
    lra.
Qed.

Lemma rng_only_refl (w : World) : rng_only w w.
Proof. repeat split. Qed.

Lemma rng_only_trans (w1 w2 w3 : World) :
  rng_only w1 w2 -> rng_only w2 w3 -> rng_only w1 w3.
Proof. unfold rng_only. intros (?&?&?) (?&?&?). repeat split; congruence. Qed.

Lemma rng_only_set_rng (g : Random) (w : World) : rng_only w (set_rng g w).
Proof. repeat split. Qed.

Lemma for_each_inv {A S : Type} (P : S -> Prop) (xs : list A) (body : A -> S -> M S) :
  (forall x s w, x ∈ xs -> P s ->
     exists s' w', body x s w = (Ok s', w') /\ P s' /\ rng_only w w') ->
  forall s w, P s ->
    exists s' w', for_each xs body s w = (Ok s', w') /\ P s' /\ rng_only w w'.
Proof.
  induction xs as [| x rest IH]; intros Hbody s w Hs.
  - exists s, w. repeat split; [exact Hs].
  - destruct (Hbody x s w ltac:(apply elem_of_cons; left; reflexivity) Hs)
      as (s1 & w1 & Hrun & Hs1 & Hw1).
    destruct (IH (fun y t v Hy => Hbody y t v ltac:(apply elem_of_cons; right; exact Hy))
                s1 w1 Hs1)
      as (s2 & w2 & Hrest & Hs2 & Hw2).
    exists s2, w2. simpl. rewrite (bind_ok _ _ _ _ _ Hrun).
    repeat split; [exact Hrest | exact Hs2 | | |]; 
      destruct Hw1 as (?&?&?), Hw2 as (?&?&?); congruence.
Qed.

Lemma place_burst_cases (len rate : Z) (w : World) :
  let w1 := set_rng (next_draw (rng w)) w in
  exists ms,
    200 <= ms <= 400 /\
    randint 200 400 w = (Ok ms, w1) /\
    let d := dur_samples rate ms in
    (skipped len d = true /\ place_burst len rate w = (Ok None, w1)) \/
    (skipped len d = false /\
     exists s, 0 <= s <= len - d /\
       place_burst len rate w =
         (Ok (Some (mkBurst ms s (s + d))), set_rng (next_draw (rng w1)) w1)).
Proof.
  intros w1.
  destruct (randint_ok 200 400 w ltac:(lia)) as (ms & Hms & Hdraw).
  exists ms. split; [exact Hms |]. split; [exact Hdraw |].
  intros d. unfold place_burst. rewrite (bind_ok _ _ _ _ _ Hdraw). fold d.
  destruct (skipped len d) eqn:Hskip.
  - left. split; reflexivity.
  - right. split; [reflexivity |].
    assert (Hd : 0 < d < len).
    { destruct (Z.leb_spec d 0), (Z.leb_spec len d);
        unfold skipped in Hskip; rewrite ?orb_true_r in Hskip;
        try discriminate; try lia;
        apply orb_false_elim in Hskip as [H1 H2];
        apply Z.leb_gt in H1, H2; lia. }
    destruct (randint_ok 0 (len - d) w1 ltac:(lia)) as (s & Hs & Hdraw2).
    exists s. split; [exact Hs |].
    rewrite (bind_ok _ _ _ _ _ Hdraw2). reflexivity.
Qed.

Lemma source_body_run (src : list Z) (idx pos : Z) (out : list Z) (w : World) :
  src <> [] -> Forall is_int16 src ->
  0 <= idx -> 0 <= pos < Z.of_nat (length out) ->
  exists v,
    src !! Z.to_nat (idx mod Z.of_nat (length src)) = Some v /\
    source_body src (idx, pos) out w = (Ok (<[Z.to_nat pos := v]> out), w).
Proof.
  intros Hne Hsrc Hidx Hpos.
  assert (HL : 0 < Z.of_nat (length src)) by (destruct src; [congruence | simpl; lia]).
  pose proof (Z.mod_pos_bound idx _ HL) as Hm.
  destruct (array_getitem_ok src _ Hm) as (v & Hv & Hget).
  exists v. split; [exact Hv |].
  unfold source_body, bind, lift. rewrite Hget.
  rewrite array_setitem_ok; [reflexivity | exact Hpos |].
  exact (Forall_lookup_1 _ _ _ _ Hsrc Hv).
Qed.

Lemma source_loop (src : list Z) (w : World) :
  src <> [] -> Forall is_int16 src ->
  forall (k : nat) (idx pos : Z) (out : list Z),
    0 <= idx -> 0 <= pos -> pos + Z.of_nat k <= Z.of_nat (length out) ->
    exists out',
      for_each (zip (seqZ idx (Z.of_nat k)) (seqZ pos (Z.of_nat k)))
        (source_body src) out w = (Ok out', w) /\
      length out' = length out /\
      (forall j, 0 <= j < Z.of_nat k ->
         out' !! Z.to_nat (pos + j)
         = src !! Z.to_nat ((idx + j) mod Z.of_nat (length src))) /\
      (forall p : nat, ~ (pos <= Z.of_nat p < pos + Z.of_nat k) -> out' !! p = out !! p).
Proof.
  intros Hne Hsrc. induction k as [| k IH]; intros idx pos out Hidx Hpos Hfit.
  - exists out. simpl. split; [reflexivity |]. split; [reflexivity |].
    split; intros; [lia | reflexivity].
  - rewrite !(seqZ_cons _ (Z.of_nat (S k))) by lia.
    replace (Z.pred (Z.of_nat (S k))) with (Z.of_nat k) by lia.
    destruct (source_body_run src idx pos out w Hne Hsrc Hidx ltac:(lia)) as (v & Hv & Hrun).
    destruct (IH (Z.succ idx) (Z.succ pos) (<[Z.to_nat pos := v]> out)
                ltac:(lia) ltac:(lia) ltac:(rewrite length_insert; lia))
      as (out' & Hloop & Hlen & Hin & Hout).
    exists out'. cbn [zip zip_with for_each]. rewrite (bind_ok _ _ _ _ _ Hrun).
    split; [exact Hloop |]. split; [rewrite Hlen; apply length_insert |]. split.
    + intros j Hj. destruct (Z.eq_dec j 0) as [-> | Hj0].
      * rewrite !Z.add_0_r, Hout by lia.
        rewrite list_lookup_insert_eq by lia. symmetry. exact Hv.
      * specialize (Hin (j - 1) ltac:(lia)).
        replace (Z.succ pos + (j - 1)) with (pos + j) in Hin by lia.
        replace (Z.succ idx + (j - 1)) with (idx + j) in Hin by lia.
        exact Hin.
    + intros p Hp. rewrite Hout by lia.
      apply list_lookup_insert_ne. lia.
Qed.

Lemma fill_from_source_unfold (src : list Z) (first last : Z) (out : list Z) :
  src <> [] ->
  fill_from_source (Some src) first last out
  = for_each (zip (seqZ 0 (Z.of_nat (Z.to_nat (last - first)))) (seqZ first (last - first)))
      (source_body src) out.
Proof.
  intros Hne. destruct src as [| x xs]; [congruence |].
  unfold fill_from_source. set (src := x :: xs).
  assert (HL : (Z.of_nat (length src) =? 0) = false)
    by (apply Z.eqb_neq; unfold src; simpl; lia).
  rewrite HL. unfold enumerate, range. rewrite length_seqZ. reflexivity.
Qed.

Lemma fill_from_source_spec (src : list Z) (first last : Z) (out : list Z) (w : World) :
  src <> [] -> Forall is_int16 src ->
  0 <= first -> last <= Z.of_nat (length out) ->
  exists out',
    fill_from_source (Some src) first last out w = (Ok out', w) /\
    length out' = length out /\
    (forall i, first <= i < last ->
       out' !! Z.to_nat i
       = src !! Z.to_nat ((i - first) mod Z.of_nat (length src))) /\
    (forall p : nat, ~ (first <= Z.of_nat p < last) -> out' !! p = out !! p).
Proof.
  intros Hne Hsrc Hfirst Hlast.
  rewrite (fill_from_source_unfold src first last out Hne).
  destruct (Z.le_gt_cases last first) as [Hempty | Hlt].
  - exists out. rewrite (seqZ_nil first) by lia.
    replace (Z.to_nat (last - first)) with 0%nat by lia. simpl.
    split; [reflexivity |]. split; [reflexivity |]. split; intros; [lia | reflexivity].
  - destruct (source_loop src w Hne Hsrc (Z.to_nat (last - first)) 0 first out
                ltac:(lia) Hfirst ltac:(lia))
      as (out' & Hloop & Hlen & Hin & Hout).
    exists out'. split; [| split; [exact Hlen | split]].
    + rewrite Z2Nat.id in Hloop by lia. rewrite Z2Nat.id by lia. exact Hloop.
    + intros i Hi. specialize (Hin (i - first) ltac:(lia)).
      replace (first + (i - first)) with i in Hin by lia.
      rewrite Z.add_0_l in Hin. exact Hin.
    + intros p Hp. apply Hout. lia.
Qed.

Lemma fill_white_ok (first last : Z) (out : list Z) (w : World) :
  0 <= first -> last <= Z.of_nat (length out) ->
  exists out' w',
    fill_white first last out w = (Ok out', w') /\
    length out' = length out /\ rng_only w w'.
Proof.
  intros Hfirst Hlast. unfold fill_white.
  apply (for_each_inv (fun s => length s = length out)); [| reflexivity].
  intros i s v Hi Hs. apply elem_of_seqZ in Hi.
  eexists. eexists. unfold white_body, bind, gauss, lift.
  rewrite array_setitem_ok; [| rewrite Hs; lia | apply clamp_int16_range].
  split; [reflexivity |]. split; [rewrite length_insert; exact Hs |].
  apply rng_only_set_rng.
Qed.

Lemma fill_from_source_ok (noise_source : option (list Z)) (first last : Z)
    (out : list Z) (w : World) :
  source_ok noise_source -> 0 <= first -> last <= Z.of_nat (length out) ->
  exists out',
    fill_from_source noise_source first last out w = (Ok out', w) /\
    length out' = length out.
Proof.
  intros Hsrc Hfirst Hlast.
  destruct noise_source as [[| x xs] |]; [exists out; split; reflexivity | | exists out; split; reflexivity].
  destruct (fill_from_source_spec (x :: xs) first last out w ltac:(discriminate) Hsrc Hfirst Hlast)
    as (out' & Hrun & Hlen & _).
  exists out'. split; assumption.
Qed.

Lemma burst_step_ok (len rate : Z) (mode : string) (noise_source : option (list Z))
    (out : list Z) (w : World) :
  source_ok noise_source -> length out = Z.to_nat len ->
  exists out' w',
    burst_step len rate mode noise_source out w = (Ok out', w') /\
    length out' = Z.to_nat len /\ rng_only w w'.
Proof.
  intros Hsrc Hlen. unfold burst_step.
  destruct (place_burst_cases len rate w) as (ms & Hms & _ & [[Hskip Hrun] | [Hskip (s & Hs & Hrun)]]).
  - rewrite (bind_ok _ _ _ _ _ Hrun). exists out. eexists.
    split; [reflexivity |]. split; [exact Hlen | apply rng_only_set_rng].
  - rewrite (bind_ok _ _ _ _ _ Hrun). cbn [start stop].
    assert (Hd : 0 < dur_samples rate ms < len).
    { unfold skipped in Hskip. apply orb_false_elim in Hskip as [H1 H2].
      apply Z.leb_gt in H1, H2. lia. }
    set (w2 := set_rng _ (set_rng _ w)).
    assert (Hw2 : rng_only w w2) by (repeat split).
    destruct (String.eqb mode "white").
    + destruct (fill_white_ok s (s + dur_samples rate ms) out w2 ltac:(lia) ltac:(lia))
        as (out' & w' & Hfill & Hlen' & Hw').
      exists out', w'. split; [exact Hfill |].
      split; [congruence | exact (rng_only_trans _ _ _ Hw2 Hw')].
    + destruct (fill_from_source_ok noise_source s (s + dur_samples rate ms) out w2
                  Hsrc ltac:(lia) ltac:(lia)) as (out' & Hfill & Hlen').
      exists out', w2. split; [exact Hfill |]. split; [congruence | exact Hw2].
Qed.

Lemma build_noise_track_ok (len rate : Z) (mode : string)
    (noise_source : option (list Z)) (w : World) :
  source_ok noise_source ->
  exists track w',
    build_noise_track len rate mode noise_source w = (Ok track, w') /\
    length track = Z.to_nat len /\ rng_only w w'.
Proof.
  intros Hsrc. unfold build_noise_track.
  destruct (randint_ok 2 4 w ltac:(lia)) as (n & Hn & Hdraw).
  rewrite (bind_ok _ _ _ _ _ Hdraw).
  destruct (for_each_inv (fun s => length s = Z.to_nat len) (range 0 n)
              (fun _ out => burst_step len rate mode noise_source out)
              ltac:(intros; apply burst_step_ok; assumption)
              (array_zeros len) (set_rng (next_draw (rng w)) w)
              ltac:(apply length_replicate))
    as (track & w' & Hrun & Hlen & Hw').
  exists track, w'. split; [exact Hrun |]. split; [exact Hlen |].
  exact (rng_only_trans _ _ _ (rng_only_set_rng _ w) Hw').
Qed.

Lemma mix_loop (scale : R) (pairs : list (Z * Z)) (acc : list Z) (w : World) :
  for_each pairs
    (fun '(b, n) mixed => lift (array_append mixed (mix_sample scale b n)))
    acc w
  = (Ok (acc ++ map (fun '(b, n) => mix_sample scale b n) pairs), w).
Proof.
  revert acc. induction pairs as [| [b n] rest IH]; intros acc; simpl.
  - rewrite app_nil_r. reflexivity.
  - unfold bind at 1, lift at 1, array_append.
    rewrite int16b_true by apply clamp_int16_range.
    rewrite IH, <- app_assoc. reflexivity.
Qed.

Lemma mix_samples_run (base_samples noise_track : list Z) (scale : R) (w : World) :
  mix_samples base_samples noise_track scale w
  = (Ok (mix_values base_samples noise_track scale), w).
Proof. unfold mix_samples. rewrite mix_loop. reflexivity. Qed.

Lemma mix_values_length (base_samples noise_track : list Z) (scale : R) :
  length noise_track = length base_samples ->
  length (mix_values base_samples noise_track scale) = length base_samples.
Proof.
  intros Hlen. unfold mix_values. rewrite length_map, length_zip. lia.
Qed.

Lemma mix_values_lookup (base_samples noise_track : list Z) (scale : R) (i : nat) (b n : Z) :
  base_samples !! i = Some b -> noise_track !! i = Some n ->
  mix_values base_samples noise_track scale !! i
  = Some (mix_sample scale b n).
Proof.
  intros Hb Hn. unfold mix_values. rewrite list_lookup_fmap.
  rewrite (lookup_zip_with pair base_samples noise_track i), Hb. simpl. rewrite Hn. reflexivity.
Qed.



Lemma read_pcm16_mono_ok (path : Path) (f : WavFile) (w : World) :
  fs w !! path = Some (Wav f) -> nchannels f = 1 -> sampwidth f = 2 ->
  read_pcm16_mono path w = (Ok (framerate f, frames f), w).
Proof.
  intros Hf Hch Hsw. unfold read_pcm16_mono, bind, wave_open_rb.
  rewrite Hf, Hch, Hsw. reflexivity.
Qed.

Lemma read_pcm16_mono_rejects (path : Path) (f : WavFile) (w : World) :
  fs w !! path = Some (Wav f) -> nchannels f <> 1 \/ sampwidth f <> 2 ->
  exists msg,
    read_pcm16_mono path w = (Raise (ValueError msg), w) /\
    (nchannels f <> 1 -> msg = (path_str path ++ " is not mono")%string) /\
    (nchannels f = 1 -> msg = (path_str path ++ " is not 16-bit PCM")%string).
Proof.
  intros Hf Hbad. unfold read_pcm16_mono, bind, wave_open_rb. rewrite Hf.
  destruct (Z.eqb_spec (nchannels f) 1) as [Hch | Hch]; simpl.
  - destruct (Z.eqb_spec (sampwidth f) 2) as [Hsw | Hsw]; simpl; [tauto |].
    eexists. split; [reflexivity |]. split; [tauto | reflexivity].
  - eexists. split; [reflexivity |]. split; [reflexivity | tauto].
Qed.




(** ** The burst length (C1) *)

(** C1, as stated, fails: at 11025 Hz a 230 ms burst is 2535.75 samples long;
    [round] would give 2536, the synthesizer places a burst of 2535 samples. *)
Lemma burst_length_is_not_rounded :
  200 <= 230 <= 400 /\
  dur_samples 11025 230 <> round (IZR 11025 * IZR 230 / 1000) /\
  round (IZR 11025 * IZR 230 / 1000) = 2536 /\
  fst (place_burst 20000 11025 Inputs.world)
  = Ok (Some (mkBurst 230 30 (30 + 2535))).
Proof.
  assert (Hround : round (IZR 11025 * IZR 230 / 1000) = 2536)
    by (apply round_near; lra).
  split; [lia |]. split; [rewrite Hround; vm_compute; discriminate |].
  split; [exact Hround | vm_compute; reflexivity].
Qed.

(** C1, amended: for every sample rate and every duration drawn from
    [200, 400] ms, the burst length in samples is [rate * ms / 1000] truncated
    toward zero (the floor, for a non-negative rate), and the burst is skipped,
    leaving the track as it is, exactly when that length is [<= 0] or
    [>=] the track length. *)
Theorem burst_length_truncated_and_skip (len rate : Z) (w : World) :
  exists ms w1,
    randint 200 400 w = (Ok ms, w1) /\ 200 <= ms <= 400 /\
    let d := dur_samples rate ms in
    let q := (IZR rate * IZR ms / 1000)%R in
    ((0 <= rate -> (IZR d <= q < IZR d + 1)%R) /\
     (rate <= 0 -> (IZR d - 1 < q <= IZR d)%R)) /\
    ((d <= 0 \/ len <= d) ->
       place_burst len rate w = (Ok None, w1) /\
       forall mode noise_source out,
         burst_step len rate mode noise_source out w = (Ok out, w1)) /\
    (~ (d <= 0 \/ len <= d) ->
       exists s w2,
         place_burst len rate w = (Ok (Some (mkBurst ms s (s + d))), w2)).
Proof.
  destruct (place_burst_cases len rate w) as (ms & Hms & Hdraw & Hcases).
  exists ms, (set_rng (next_draw (rng w)) w).
  split; [exact Hdraw |]. split; [exact Hms |]. cbv zeta.
  split.
  { destruct (dur_samples_truncates rate ms) as [Hpos Hneg].
    split; intros Hr; [apply Hpos | apply Hneg]; nia. }
  cbv zeta in Hcases.
  destruct Hcases as [[Hskip Hrun] | [Hskip (s & Hs & Hrun)]].
  - split.
    + intros _. split; [exact Hrun |]. intros mode src out.
      unfold burst_step. rewrite (bind_ok _ _ _ _ _ Hrun). reflexivity.
    + intros Hno. apply skipped_spec in Hskip. tauto.
  - split.
    + intros Hyes. apply skipped_spec in Hyes. congruence.
    + intros _. eexists. eexists. exact Hrun.
Qed.

(** ** Burst bounds (C6) *)

(** C6: every burst that [build_noise_track] fills (every [Some] placement,
    whose interval is handed to the fill closure) has a duration of 200 to
    400 ms and an interval with [0 <= start < stop <= length]; the number of
    loop iterations is a draw from [2, 3, 4]. *)
Theorem burst_bounds (len rate : Z) (w w' : World) (b : Burst) :
  place_burst len rate w = (Ok (Some b), w') ->
  (200 <= dur_ms b <= 400 /\ 0 <= start b /\ start b < stop b /\ stop b <= len) /\
  (forall mode noise_source out,
     burst_step len rate mode noise_source out w
     = (if String.eqb mode "white" then fill_white (start b) (stop b) out
        else fill_from_source noise_source (start b) (stop b) out) w') /\
  (forall mode noise_source v,
     exists bursts v1,
       randint 2 4 v = (Ok bursts, v1) /\
       (bursts = 2 \/ bursts = 3 \/ bursts = 4) /\
       build_noise_track len rate mode noise_source v
       = for_each (range 0 bursts)
           (fun _ out => burst_step len rate mode noise_source out)
           (array_zeros len) v1).
Proof.
  intros Hplace. split; [| split].
  - destruct (place_burst_cases len rate w)
      as (ms & Hms & _ & [[_ Hrun] | [Hskip (s & Hs & Hrun)]]);
      rewrite Hrun in Hplace; [discriminate |].
    injection Hplace as <- _. cbn [dur_ms start stop].
    unfold skipped in Hskip. apply orb_false_elim in Hskip as [H1 H2].
    apply Z.leb_gt in H1, H2. lia.
  - intros mode src out. unfold burst_step.
    rewrite (bind_ok _ _ _ _ _ Hplace). reflexivity.
  - intros mode src v.
    destruct (randint_ok 2 4 v ltac:(lia)) as (n & Hn & Hdraw).
    exists n. eexists. split; [exact Hdraw |]. split; [lia |].
    unfold build_noise_track. rewrite (bind_ok _ _ _ _ _ Hdraw). reflexivity.
Qed.

(** At 8000 Hz on a track of 20000 samples the first placement is a 230 ms
    burst over [30, 1870). *)
Lemma burst_bounds_witness :
  200 <= 230 <= 400 /\ 0 <= 30 /\ 30 < 1870 /\ 1870 <= 20000.
Proof.
  refine (proj1 (burst_bounds 20000 8000 Inputs.world _ (mkBurst 230 30 1870) _)).
  vm_compute. reflexivity.
Defined.

(** ** Recorded-source bursts (C5) *)

Lemma burst_step_without_source (len rate : Z) (mode : string)
    (noise_source : option (list Z)) (out : list Z) (w : World) :
  String.eqb mode "white" = false ->
  noise_source = None \/ noise_source = Some [] ->
  exists w', burst_step len rate mode noise_source out w = (Ok out, w') /\ rng_only w w'.
Proof.
  intros Hmode Hempty. unfold burst_step.
  destruct (place_burst_cases len rate w)
    as (ms & _ & _ & [[_ Hrun] | [_ (s & _ & Hrun)]]);
    rewrite (bind_ok _ _ _ _ _ Hrun); eexists.
  - split; [reflexivity | apply rng_only_set_rng].
  - rewrite Hmode. destruct Hempty as [-> | ->];
      (split; [reflexivity | repeat split]).
Qed.

Lemma build_noise_track_without_source (len rate : Z) (mode : string)
    (noise_source : option (list Z)) (w : World) :
  String.eqb mode "white" = false ->
  noise_source = None \/ noise_source = Some [] ->
  exists w',
    build_noise_track len rate mode noise_source w = (Ok (array_zeros len), w') /\
    rng_only w w'.
Proof.
  intros Hmode Hempty. unfold build_noise_track.
  destruct (randint_ok 2 4 w ltac:(lia)) as (n & _ & Hdraw).
  rewrite (bind_ok _ _ _ _ _ Hdraw).
  destruct (for_each_inv (fun s => s = array_zeros len) (range 0 n)
              (fun _ out => burst_step len rate mode noise_source out))
    with (s := array_zeros len) (w := set_rng (next_draw (rng w)) w)
    as (track & w' & Hrun & -> & Hw'); [| reflexivity |].
  - intros _ s v _ ->.
    destruct (burst_step_without_source len rate mode noise_source (array_zeros len) v
                Hmode Hempty) as (v' & Hstep & Hv').
    exists (array_zeros len), v'. repeat split; try exact Hstep; apply Hv'.
  - exists w'. split; [exact Hrun |].
    exact (rng_only_trans _ _ _ (rng_only_set_rng _ w) Hw').
Qed.

(** C5: in recorded-source mode a burst [first, last) filled from a non-empty
    source of length L holds, at every position i of the burst, the source
    sample of index [(i - first) mod L], so every burst starts again at source
    index 0; samples outside the burst keep their value.  With no source or an
    empty one the fill changes nothing, and the whole track stays all zero. *)
Theorem recorded_source_fill (noise_source : option (list Z)) (first last : Z)
    (out : list Z) (w : World) :
  source_ok noise_source -> 0 <= first -> last <= Z.of_nat (length out) ->
  exists out',
    fill_from_source noise_source first last out w = (Ok out', w) /\
    length out' = length out /\
    (forall src, noise_source = Some src -> src <> [] ->
       (forall i, first <= i < last ->
          out' !! Z.to_nat i = src !! Z.to_nat ((i - first) mod Z.of_nat (length src))) /\
       (first < last -> out' !! Z.to_nat first = src !! 0%nat) /\
       (forall p : nat, ~ (first <= Z.of_nat p < last) -> out' !! p = out !! p)) /\
    (noise_source = None \/ noise_source = Some [] ->
       out' = out /\
       forall len rate mode v,
         String.eqb mode "white" = false ->
         exists v',
           build_noise_track len rate mode noise_source v = (Ok (array_zeros len), v') /\
           Forall (fun x => x = 0) (array_zeros len)).
Proof.
  intros Hsrc Hfirst Hlast.
  destruct noise_source as [[| x xs] |].
  - exists out. split; [reflexivity |]. split; [reflexivity |]. split.
    + intros src [= <-] Hne. congruence.
    + intros Hempty. split; [reflexivity |]. intros len rate mode v Hmode.
      destruct (build_noise_track_without_source len rate mode (Some []) v Hmode Hempty)
        as (v' & Hrun & _).
      exists v'. split; [exact Hrun |]. apply Forall_replicate. reflexivity.
  - destruct (fill_from_source_spec (x :: xs) first last out w
                ltac:(discriminate) Hsrc Hfirst Hlast)
      as (out' & Hrun & Hlen & Hin & Hout).
    exists out'. split; [exact Hrun |]. split; [exact Hlen |]. split.
    + intros src [= <-] _. split; [exact Hin |]. split; [| exact Hout].
      intros Hlt. rewrite (Hin first) by lia.
      rewrite Z.sub_diag, Z.mod_0_l by (simpl; lia). reflexivity.
    + intros [Hn | Hs]; discriminate.
  - exists out. split; [reflexivity |]. split; [reflexivity |]. split.
    + intros src Hsome. discriminate.
    + intros Hempty. split; [reflexivity |]. intros len rate mode v Hmode.
      destruct (build_noise_track_without_source len rate mode None v Hmode Hempty)
        as (v' & Hrun & _).
      exists v'. split; [exact Hrun |]. apply Forall_replicate. reflexivity.
Qed.

(** A burst over [2, 7) of an 8-sample track from the source 5, -6, 7. *)
Lemma recorded_source_fill_witness :
  exists out',
    fst (fill_from_source (Some [5; -6; 7]) 2 7 (array_zeros 8) Inputs.world) = Ok out' /\
    out' !! 2%nat = Some 5 /\ out' !! 6%nat = Some (-6) /\ out' !! 7%nat = Some 0.
Proof.
  destruct (recorded_source_fill (Some [5; -6; 7]) 2 7 (array_zeros 8) Inputs.world)
    as (out' & Hrun & _ & Hsome & _).
  - repeat constructor; unfold INT16_MIN, INT16_MAX; lia.
  - lia.
  - simpl. lia.
  - destruct (Hsome [5; -6; 7] eq_refl ltac:(discriminate)) as (Hin & _ & Hout).
    exists out'. rewrite Hrun. split; [reflexivity |].
    split; [exact (Hin 2 ltac:(lia)) |].
    split; [exact (Hin 6 ltac:(lia)) |].
    rewrite (Hout 7%nat) by lia. reflexivity.
Defined.

(** ** The mixer (C2, C3, C4) *)

Lemma round_lower (x : R) (n : Z) : (IZR n <= x)%R -> n <= round x.
Proof.
  intros Hn. pose proof (Int_part_bounds x) as [Hlo Hhi].
  assert (Hf : n <= Int_part x).
  { apply Zlt_succ_le, lt_IZR. rewrite succ_IZR. lra. }
  unfold round.
  repeat match goal with |- context [if ?c then _ else _] => destruct c end; lia.
Qed.

Lemma round_upper (x : R) (n : Z) : (x <= IZR n)%R -> round x <= n.
Proof.
  intros Hn. pose proof (Int_part_bounds x) as [Hlo Hhi].
  assert (Hf : Int_part x <= n) by (apply le_IZR; lra).
  unfold round.
  destruct (Rlt_dec (x - IZR (Int_part x)) (1 / 2)) as [_ | Hd]; [exact Hf |].
  assert (Hne : Int_part x <> n) by (intros Heq; rewrite Heq in *; lra).
  repeat match goal with |- context [if ?c then _ else _] => destruct c end; lia.
Qed.

Lemma clamp_int16_saturates (x : R) :
  -32768 <= clamp_int16 x <= 32767 /\
  ((x <= -32768)%R -> clamp_int16 x = -32768) /\
  ((32767 <= x)%R -> clamp_int16 x = 32767) /\
  ((-32768 <= x <= 32767)%R -> clamp_int16 x = round x).
Proof.
  unfold clamp_int16. split; [lia |]. split; [| split].
  - intros Hx. pose proof (round_upper x (-32768) Hx). lia.
  - intros Hx. pose proof (round_lower x 32767 Hx). lia.
  - intros [Hlo Hhi].
    pose proof (round_lower x (-32768) Hlo). pose proof (round_upper x 32767 Hhi). lia.
Qed.



Lemma array_setitem_length (a a' : list Z) (i v : Z) :
  array_setitem a i v = Ok a' -> length a' = length a.
Proof.
  unfold array_setitem. destruct (norm_index _ i) as [j |]; [| discriminate].
  destruct (int16b v); [| discriminate].
  intros [= <-]. apply length_insert.
Qed.

Lemma for_each_preserves {A S : Type} (P : S -> Prop) (xs : list A) (body : A -> S -> M S) :
  (forall x s w s' w', body x s w = (Ok s', w') -> P s -> P s') ->
  forall s w s' w', for_each xs body s w = (Ok s', w') -> P s -> P s'.
Proof.
  intros Hbody. induction xs as [| x rest IH]; intros s w s' w' Hrun Hs; simpl in Hrun.
  - injection Hrun as <- _. exact Hs.
  - unfold bind in Hrun. destruct (body x s w) as [[s1 | e] w1] eqn:Hstep; [| discriminate].
    exact (IH s1 w1 s' w' Hrun (Hbody x s w s1 w1 Hstep Hs)).
Qed.

Lemma burst_step_length (len rate : Z) (mode : string) (noise_source : option (list Z))
    (out out' : list Z) (w w' : World) :
  burst_step len rate mode noise_source out w = (Ok out', w') ->
  length out' = length out.
Proof.
  unfold burst_step, bind at 1.
  destruct (place_burst len rate w) as [[[b |] | e] w1]; try discriminate.
  2:{ intros [= <- _]. reflexivity. }
  destruct (String.eqb mode "white").
  - unfold fill_white. intros Hrun.
    refine (for_each_preserves (fun s => length s = length out) _ _ _ _ _ _ _ Hrun eq_refl).
    intros i s v s' v' Hstep Hs. unfold white_body, bind, gauss, lift in Hstep.
    injection Hstep as Hset _. rewrite (array_setitem_length _ _ _ _ Hset). exact Hs.
  - unfold fill_from_source. destruct noise_source as [[| x xs] |];
      try (intros [= <- _]; reflexivity).
    destruct (Z.of_nat (length (x :: xs)) =? 0); [intros [= <- _]; reflexivity |].
    intros Hrun.
    refine (for_each_preserves (fun s => length s = length out) _ _ _ _ _ _ _ Hrun eq_refl).
    intros [idx pos] s v s' v' Hstep Hs. unfold source_body, bind, lift in Hstep.
    destruct (array_getitem (x :: xs) _) as [item | e]; [| discriminate].
    injection Hstep as Hset _. rewrite (array_setitem_length _ _ _ _ Hset). exact Hs.
Qed.

Lemma build_noise_track_length (len rate : Z) (mode : string)
    (noise_source : option (list Z)) (track : list Z) (w w' : World) :
  build_noise_track len rate mode noise_source w = (Ok track, w') ->
  length track = Z.to_nat len.
Proof.
  unfold build_noise_track, bind at 1.
  destruct (randint 2 4 w) as [[bursts | e] w1]; [| discriminate].
  intros Hrun.
  refine (for_each_preserves (fun s => length s = Z.to_nat len) _ _ _ _ _ _ _ Hrun _).
  - intros _ s v s' v' Hstep Hs. rewrite (burst_step_length _ _ _ _ _ _ _ _ Hstep). exact Hs.
  - apply length_replicate.
Qed.

(** C3: for every base buffer and every noise track that [build_noise_track]
    returns for it, the track is as long as the base, and mixing the two, at
    any scale, yields exactly as many samples as the base has; and a track is
    indeed returned whenever the noise source is an array of 16-bit values. *)
Theorem mixed_length (base_samples : list Z) (rate : Z) (mode : string)
    (noise_source : option (list Z)) (track : list Z) (w w1 : World) :
  build_noise_track (Z.of_nat (length base_samples)) rate mode noise_source w
    = (Ok track, w1) ->
  length track = length base_samples /\
  (forall (scale : R) (w2 : World),
     exists mixed,
       mix_samples base_samples track scale w2 = (Ok mixed, w2) /\
       length mixed = length base_samples) /\
  (forall v : World,
     source_ok noise_source ->
     exists track' v',
       build_noise_track (Z.of_nat (length base_samples)) rate mode noise_source v
         = (Ok track', v')).
Proof.
  intros Hbuild.
  assert (Hlen : length track = length base_samples)
    by (rewrite (build_noise_track_length _ _ _ _ _ _ _ Hbuild); lia).
  split; [exact Hlen |]. split.
  - intros scale w2. exists (mix_values base_samples track scale).
    split; [apply mix_samples_run | apply mix_values_length; exact Hlen].
  - intros v Hsrc.
    destruct (build_noise_track_ok (Z.of_nat (length base_samples)) rate mode
                noise_source v Hsrc) as (track' & v' & Hrun & _).
    exists track', v'. exact Hrun.
Qed.

(** A base of 20 samples at 40 Hz with a recorded three-sample source. *)
Lemma mixed_length_witness :
  exists track,
    fst (build_noise_track 20 40 "atc" (Some [5; -6; 7]) Inputs.world) = Ok track /\
    length track = 20%nat /\
    forall (scale : R) (w2 : World),
      exists mixed,
        mix_samples (array_zeros 20) track scale w2 = (Ok mixed, w2) /\
        length mixed = 20%nat.
Proof.
  eexists. split; [vm_compute; reflexivity |].
  refine (let H := mixed_length (array_zeros 20) 40 "atc" (Some [5; -6; 7]) _
                     Inputs.world _ _ in
          conj (proj1 H) (proj1 (proj2 H))).
  vm_compute. reflexivity.
Defined.

(** C4: [clamp_int16] maps every real into [-32768, 32767], saturating at
    the two ends and rounding in between; the mixing loop succeeds on every
    pair of buffers and every scale, each mixed sample is
    [clamp_int16(base[i] + noise_track[i] * scale)], and all of them lie in
    [-32768, 32767]. *)
Theorem mixed_range (base_samples noise_track : list Z) (scale : R) (w : World) :
  (forall x : R,
     -32768 <= clamp_int16 x <= 32767 /\
     ((x <= -32768)%R -> clamp_int16 x = -32768) /\
     ((32767 <= x)%R -> clamp_int16 x = 32767) /\
     ((-32768 <= x <= 32767)%R -> clamp_int16 x = round x)) /\
  exists mixed,
    mix_samples base_samples noise_track scale w = (Ok mixed, w) /\
    Forall (fun v => -32768 <= v <= 32767) mixed /\
    (forall (i : nat) (b n : Z),
       base_samples !! i = Some b -> noise_track !! i = Some n ->
       mixed !! i = Some (clamp_int16 (IZR b + IZR n * scale))) /\
    (forall (i : nat) (v : Z), mixed !! i = Some v -> -32768 <= v <= 32767).
Proof.
  split; [exact clamp_int16_saturates |].
  exists (mix_values base_samples noise_track scale).
  assert (Hall : Forall (fun v => -32768 <= v <= 32767)
                   (mix_values base_samples noise_track scale)).
  { unfold mix_values. apply Forall_fmap, Forall_forall. intros [b n] _.
    apply (clamp_int16_range (IZR b + IZR n * scale)). }
  split; [apply mix_samples_run |]. split; [exact Hall |]. split.
  - intros i b n Hb Hn. exact (mix_values_lookup _ _ scale i b n Hb Hn).
  - intros i v Hv. exact (Forall_lookup_1 _ _ _ _ Hall Hv).
Qed.

(** ** The orchestration (C7, C8, C9) *)

Lemma sum_squares_silent (samples : list Z) (acc : R) :
  Forall (fun s => s = 0) samples ->
  fold_left (fun a s => (a + IZR s * IZR s)%R) samples acc = acc.
Proof.
  intros Hall. revert acc. induction Hall as [| s rest -> _ IH]; intros acc; simpl.
  - reflexivity.
  - rewrite IH. lra.
Qed.

Lemma rms_silent (samples : list Z) :
  Forall (fun s => s = 0) samples -> rms samples = 0%R.
Proof.
  intros Hall. destruct samples as [| s rest]; [reflexivity |].
  unfold rms, sum_squares. rewrite sum_squares_silent by exact Hall.
  unfold Rdiv. rewrite Rmult_0_l. exact sqrt_0.
Qed.

Lemma load_noise_source_white (rate : Z) (mode : string) (noise_path : option Path)
    (w : World) :
  String.eqb mode "white" = true ->
  load_noise_source rate mode noise_path w = (Ok None, w).
Proof. intros Hmode. unfold load_noise_source. rewrite Hmode. reflexivity. Qed.

Lemma load_noise_source_recorded (rate : Z) (mode : string) (p : Path) (nw : WavFile)
    (w : World) :
  String.eqb mode "white" = false -> pcm16_mono_file w p nw ->
  load_noise_source rate mode (Some p) w
  = if framerate nw =? rate then (Ok (Some (frames nw)), w)
    else (Raise (ValueError ("Sample rate mismatch: base=" ++ str_of_int rate
                             ++ "Hz noise=" ++ str_of_int (framerate nw) ++ "Hz")), w).
Proof.
  intros Hmode (Hf & Hch & Hsw). unfold load_noise_source. rewrite Hmode. simpl.
  rewrite (bind_ok _ _ _ _ _ (read_pcm16_mono_ok p nw w Hf Hch Hsw)).
  destruct (framerate nw =? rate); reflexivity.
Qed.



(** C8: in recorded-source mode (any mode other than "white"), once the base
    has loaded, a missing noise path and a noise source at another sample
    rate each make [mix_bursty_noise] raise its configuration error, and the
    world is then exactly as it was: no random draw was made (no noise track
    was synthesized) and no file or directory was written. *)
Theorem configuration_errors (base_path out_path : Path) (snr_db : R) (mode : string)
    (bw : WavFile) (w : World) :
  pcm16_mono_file w base_path bw -> String.eqb mode "white" = false ->
  mix_bursty_noise base_path out_path snr_db mode None w
  = (Raise (ValueError "noise_path is required for non-white noise"), w) /\
  forall (p : Path) (nw : WavFile),
    pcm16_mono_file w p nw -> framerate nw <> framerate bw ->
    mix_bursty_noise base_path out_path snr_db mode (Some p) w
    = (Raise (ValueError ("Sample rate mismatch: base=" ++ str_of_int (framerate bw)
                          ++ "Hz noise=" ++ str_of_int (framerate nw) ++ "Hz")), w).
Proof.
  intros (Hf & Hch & Hsw) Hmode.
  pose proof (read_pcm16_mono_ok base_path bw w Hf Hch Hsw) as Hbase.
  split.
  - unfold mix_bursty_noise. rewrite (bind_ok _ _ _ _ _ Hbase). cbv beta iota.
    apply bind_raise. unfold load_noise_source. rewrite Hmode. reflexivity.
  - intros p nw Hnoise Hrate.
    unfold mix_bursty_noise. rewrite (bind_ok _ _ _ _ _ Hbase). cbv beta iota.
    apply bind_raise. rewrite (load_noise_source_recorded _ _ _ _ _ Hmode Hnoise).
    destruct (Z.eqb_spec (framerate nw) (framerate bw)); [contradiction | reflexivity].
Qed.

(** An 8000 Hz base with no noise path, and with an 11025 Hz noise source. *)
Lemma configuration_errors_witness :
  mix_bursty_noise ["in"; "base.wav"]%string ["out"; "mixed.wav"]%string 20 "atc" None
    Inputs.world
  = (Raise (ValueError "noise_path is required for non-white noise"), Inputs.world) /\
  mix_bursty_noise ["in"; "base.wav"]%string ["out"; "mixed.wav"]%string 20 "atc"
    (Some ["in"; "fast.wav"]%string) Inputs.world
  = (Raise (ValueError "Sample rate mismatch: base=8000Hz noise=11025Hz"), Inputs.world).
Proof.
  assert (Hbase : pcm16_mono_file Inputs.world ["in"; "base.wav"]%string Inputs.base_wav)
    by (repeat split; vm_compute; reflexivity).
  assert (Hfast : pcm16_mono_file Inputs.world ["in"; "fast.wav"]%string Inputs.fast_noise_wav)
    by (repeat split; vm_compute; reflexivity).
  destruct (configuration_errors ["in"; "base.wav"]%string ["out"; "mixed.wav"]%string 20
              "atc" Inputs.base_wav Inputs.world Hbase eq_refl) as [Hnone Hrate].
  split; [exact Hnone |].
  apply (Hrate ["in"; "fast.wav"]%string Inputs.fast_noise_wav Hfast). discriminate.
Defined.

(** C9: loading a container whose channel count is not 1 or whose sample
    width is not 2 bytes raises the format error and yields no buffer; a
    fixture generation that meets such a file, as its base or as its noise
    source, raises that error and leaves the world untouched: nothing has been
    written. *)
Theorem format_errors (path : Path) (f : WavFile) (w : World) :
  fs w !! path = Some (Wav f) -> nchannels f <> 1 \/ sampwidth f <> 2 ->
  exists msg,
    msg = (if (nchannels f =? 1)%Z then path_str path ++ " is not 16-bit PCM"
           else path_str path ++ " is not mono")%string /\
    read_pcm16_mono path w = (Raise (ValueError msg), w) /\
    (forall out_path snr_db mode noise_path,
       mix_bursty_noise path out_path snr_db mode noise_path w
       = (Raise (ValueError msg), w)) /\
    (forall base_path bw out_path snr_db mode,
       pcm16_mono_file w base_path bw -> String.eqb mode "white" = false ->
       mix_bursty_noise base_path out_path snr_db mode (Some path) w
       = (Raise (ValueError msg), w)).
Proof.
  intros Hf Hbad.
  destruct (read_pcm16_mono_rejects path f w Hf Hbad) as (msg & Hread & Hmono & Hwidth).
  exists msg. split.
  { destruct (Z.eqb_spec (nchannels f) 1) as [Hch | Hch]; [exact (Hwidth Hch) | exact (Hmono Hch)]. }
  split; [exact Hread |]. split.
  - intros out_path snr_db mode noise_path. unfold mix_bursty_noise.
    apply bind_raise. exact Hread.
  - intros base_path bw out_path snr_db mode (Hbf & Hch & Hsw) Hmode.
    unfold mix_bursty_noise.
    rewrite (bind_ok _ _ _ _ _ (read_pcm16_mono_ok base_path bw w Hbf Hch Hsw)).
    cbv beta iota. apply bind_raise. unfold load_noise_source. rewrite Hmode. simpl.
    apply bind_raise. exact Hread.
Qed.

(** A stereo base is rejected and nothing is written. *)
Lemma format_errors_witness :
  read_pcm16_mono ["in"; "stereo.wav"]%string Inputs.world
  = (Raise (ValueError "in/stereo.wav is not mono"), Inputs.world) /\
  mix_bursty_noise ["in"; "stereo.wav"]%string ["out"; "mixed.wav"]%string 20 "white" None
    Inputs.world
  = (Raise (ValueError "in/stereo.wav is not mono"), Inputs.world).
Proof.
  destruct (format_errors ["in"; "stereo.wav"]%string Inputs.stereo_wav Inputs.world)
    as (msg & -> & Hread & Hmix & _).
  - vm_compute. reflexivity.
  - left. vm_compute. discriminate.
  - split; [exact Hread | apply Hmix].
Defined.

(** ** Nothing is written before the mixing is done *)













(** ** The filename-token normalizers (C10) *)

Lemma prefix_app (old s : string) : String.prefix old (old ++ s) = true.
Proof.
  induction old as [| c old IH]; simpl; [destruct s; reflexivity |].
  destruct (ascii_dec c c); [exact IH | congruence].
Qed.

Lemma replace_scan_skip (old new pre s : string) :
  replace_scan old new (String.length pre) (pre ++ s) = replace_scan old new O s.
Proof.
  induction pre as [| c pre IH]; simpl; [destruct s; reflexivity | exact IH].
Qed.

(** Where [old] occurs at the head, [new] is emitted and the scan resumes
    after the occurrence. *)
Lemma replace_scan_match (old new s : string) :
  old <> EmptyString ->
  replace_scan old new O (old ++ s) = (new ++ replace_scan old new O s)%string.
Proof.
  intros Hne. destruct old as [| c old]; [congruence |].
  change (String c old ++ s)%string with (String c (old ++ s)).
  cbn [replace_scan]. 
  change (String c (old ++ s)) with (String c old ++ s)%string.
  rewrite prefix_app. cbn [String.length Nat.pred].
  rewrite replace_scan_skip. reflexivity.
Qed.

(** Where [old] does not occur at the head, the head character is copied. *)
Lemma replace_scan_copy (old new : string) (c : ascii) (s : string) :
  String.prefix old (String c s) = false ->
  replace_scan old new O (String c s) = String c (replace_scan old new O s).
Proof. intros Hno. cbn [replace_scan]. rewrite Hno. reflexivity. Qed.


Section SingleCharacter.

Variables (old : string) (x : ascii).

Let new : string := String x EmptyString.




End SingleCharacter.


(** * Further properties of the tools *)

Import Draws Concat Harness Tally Stats.

(** ** Round trip through the WAV adapter *)



(** ** RMS *)

Lemma sum_squares_acc (samples : list Z) (acc : R) :
  fold_left (fun a s => (a + IZR s * IZR s)%R) samples acc
  = (acc + sum_squares samples)%R.
Proof.
  unfold sum_squares. revert acc.
  induction samples as [| s rest IH]; intros acc; simpl; [lra |].
  rewrite IH, (IH (0 + _)%R). lra.
Qed.

Lemma sum_squares_cons (s : Z) (rest : list Z) :
  sum_squares (s :: rest) = (IZR s * IZR s + sum_squares rest)%R.
Proof. unfold sum_squares at 1. simpl. rewrite sum_squares_acc. lra. Qed.

Lemma sum_squares_nonneg (samples : list Z) : (0 <= sum_squares samples)%R.
Proof.
  induction samples as [| s rest IH]; [unfold sum_squares; simpl; lra |].
  rewrite sum_squares_cons. pose proof (Rle_0_sqr (IZR s)) as Hs. unfold Rsqr in Hs. lra.
Qed.

Lemma sum_squares_zero (samples : list Z) :
  sum_squares samples = 0%R -> Forall (fun s => s = 0) samples.
Proof.
  induction samples as [| s rest IH]; intros Hsum; [constructor |].
  rewrite sum_squares_cons in Hsum.
  pose proof (Rle_0_sqr (IZR s)) as Hs. unfold Rsqr in Hs.
  pose proof (sum_squares_nonneg rest) as Hrest.
  constructor.
  - apply eq_IZR. apply Rsqr_0_uniq. unfold Rsqr. lra.
  - apply IH. lra.
Qed.

Lemma sum_squares_bound (samples : list Z) (B : Z) :
  Forall (fun s => Z.abs s <= B) samples ->
  (sum_squares samples <= INR (length samples) * (IZR B * IZR B))%R.
Proof.
  induction 1 as [| s rest Hs _ IH].
  - unfold sum_squares. simpl. lra.
  - rewrite sum_squares_cons. cbn [length]. rewrite S_INR.
    assert (Hsq : (IZR s * IZR s <= IZR B * IZR B)%R).
    { rewrite <- !mult_IZR. apply IZR_le. nia. }
    lra.
Qed.

(** X2: [rms] is never negative, and it is zero exactly when the buffer is
    empty or all zero, so the mixer's [== 0] tests fire on silence only. *)
Theorem rms_zero_iff_silent (samples : list Z) :
  (0 <= rms samples)%R /\
  (rms samples = 0%R <-> Forall (fun s => s = 0) samples).
Proof.
  destruct samples as [| s rest]; [split; [simpl; lra | split; [constructor | reflexivity]] |].
  set (l := s :: rest).
  assert (Hn : (0 < INR (length l))%R) by (apply lt_0_INR; simpl; lia).
  assert (Hq : (0 <= sum_squares l / INR (length l))%R).
  { apply Rmult_le_pos; [apply sum_squares_nonneg | left; apply Rinv_0_lt_compat; exact Hn]. }
  split; [apply sqrt_pos |]. split.
  - intros Hrms. apply sum_squares_zero.
    apply sqrt_eq_0 in Hrms; [| exact Hq].
    apply (Rmult_eq_compat_r (INR (length l))) in Hrms.
    unfold Rdiv in Hrms. rewrite Rmult_assoc, Rinv_l, Rmult_1_r, Rmult_0_l in Hrms by lra.
    exact Hrms.
  - apply rms_silent.
Qed.

(** X3: [rms] never exceeds a bound on the magnitudes in the buffer. *)
Theorem rms_bounded (samples : list Z) (B : Z) :
  0 <= B -> Forall (fun s => Z.abs s <= B) samples -> (rms samples <= IZR B)%R.
Proof.
  intros HB Hall. destruct samples as [| s rest]; [simpl; apply IZR_le; exact HB |].
  set (l := s :: rest) in *.
  assert (Hn : (0 < INR (length l))%R) by (apply lt_0_INR; simpl; lia).
  unfold rms. fold l.
  rewrite <- (sqrt_square (IZR B)) by (apply IZR_le; exact HB).
  apply sqrt_le_1_alt.
  apply (Rmult_le_reg_r (INR (length l))); [exact Hn |].
  unfold Rdiv. rewrite Rmult_assoc, Rinv_l, Rmult_1_r by lra.
  pose proof (sum_squares_bound l B Hall). lra.
Qed.

Lemma rms_bounded_witness : (rms [3; -4; 0]%Z <= 4)%R.
Proof.
  apply (rms_bounded [3; -4; 0] 4); [lia | repeat constructor; simpl; lia].
Defined.

(** ** Mixing against silence *)

Lemma round_IZR (n : Z) : round (IZR n) = n.
Proof. apply round_near. lra. Qed.

Lemma clamp_int16_IZR (v : Z) : is_int16 v -> clamp_int16 (IZR v) = v.
Proof.
  unfold is_int16, INT16_MIN, INT16_MAX, clamp_int16. intros Hv.
  rewrite round_IZR. lia.
Qed.

Lemma mix_values_silent (base_samples noise_track : list Z) (scale : R) :
  Forall is_int16 base_samples ->
  length noise_track = length base_samples ->
  Forall (fun n => n = 0) noise_track \/ scale = 0%R ->
  mix_values base_samples noise_track scale = base_samples.
Proof.
  intros Hbase. unfold mix_values. revert noise_track.
  induction Hbase as [| b rest Hb _ IH]; intros [| n track] Hlen Hsilent;
    try discriminate; [reflexivity |].
  simpl. f_equal.
  - unfold mix_sample.
    replace (IZR b + IZR n * scale)%R with (IZR b); [exact (clamp_int16_IZR b Hb) |].
    destruct Hsilent as [Hzero | ->]; [| lra].
    inversion Hzero; subst. lra.
  - apply IH; [simpl in Hlen; lia |].
    destruct Hsilent as [Hzero | Hs]; [left; inversion Hzero; assumption | right; exact Hs].
Qed.

(** X4: against an all-zero noise track, or at scale 0, the mixing loop
    returns the base samples unchanged. *)
Theorem mix_silent_noise (base_samples noise_track : list Z) (scale : R) (w : World) :
  Forall is_int16 base_samples ->
  length noise_track = length base_samples ->
  Forall (fun n => n = 0) noise_track \/ scale = 0%R ->
  mix_samples base_samples noise_track scale w = (Ok base_samples, w).
Proof.
  intros Hbase Hlen Hsilent. rewrite mix_samples_run.
  rewrite (mix_values_silent _ _ _ Hbase Hlen Hsilent). reflexivity.
Qed.

Lemma mix_silent_noise_witness :
  mix_samples [100; -32768; 32767] [0; 0; 0] 2.5 Inputs.world
  = (Ok [100; -32768; 32767], Inputs.world).
Proof.
  apply mix_silent_noise.
  - repeat constructor; unfold INT16_MIN, INT16_MAX; lia.
  - reflexivity.
  - left. repeat constructor.
Defined.

(** ** Tracks too short for a burst *)

Lemma short_track_skips (len rate ms : Z) :
  rate <= 0 \/ len <= dur_samples rate 200 ->
  200 <= ms <= 400 ->
  skipped len (dur_samples rate ms) = true.
Proof.
  intros Hshort Hms. apply skipped_spec. unfold dur_samples, int_of_quotient in *.
  destruct (Z.le_gt_cases rate 0) as [Hneg | Hpos].
  - left. change 0 with (0 ÷ 1000). apply Z.quot_le_mono; nia.
  - right. destruct Hshort as [Hrate | Hlen]; [lia |].
    etransitivity; [exact Hlen |]. apply Z.quot_le_mono; nia.
Qed.

Lemma burst_step_short (len rate : Z) (mode : string) (noise_source : option (list Z))
    (out : list Z) (w : World) :
  rate <= 0 \/ len <= dur_samples rate 200 ->
  burst_step len rate mode noise_source out w = (Ok out, advance 1 w).
Proof.
  intros Hshort. unfold burst_step.
  destruct (place_burst_cases len rate w)
    as (ms & Hms & _ & [[_ Hrun] | [Hskip _]]).
  - rewrite (bind_ok _ _ _ _ _ Hrun). unfold ret, advance, next_draw.
    rewrite Nat.add_1_r. reflexivity.
  - rewrite (short_track_skips len rate ms Hshort Hms) in Hskip. discriminate.
Qed.

Lemma advance_advance (n m : nat) (w : World) :
  advance m (advance n w) = advance (n + m) w.
Proof. unfold advance, set_rng. simpl. rewrite Nat.add_assoc. reflexivity. Qed.

Lemma short_loop (len rate : Z) (mode : string) (noise_source : option (list Z))
    (xs : list Z) (out : list Z) (w : World) :
  rate <= 0 \/ len <= dur_samples rate 200 ->
  for_each xs (fun _ o => burst_step len rate mode noise_source o) out w
  = (Ok out, advance (length xs) w).
Proof.
  intros Hshort. revert w. induction xs as [| x rest IH]; intros w; simpl.
  - unfold ret, advance, set_rng. rewrite Nat.add_0_r. destruct w as [? ? [? ? ?] ?]. reflexivity.
  - rewrite (bind_ok _ _ _ _ _ (burst_step_short len rate mode noise_source out w Hshort)).
    rewrite IH, advance_advance. reflexivity.
Qed.

Lemma build_noise_track_short (len rate : Z) (mode : string)
    (noise_source : option (list Z)) (w : World) :
  rate <= 0 \/ len <= dur_samples rate 200 ->
  exists bursts,
    2 <= bursts <= 4 /\
    build_noise_track len rate mode noise_source w
    = (Ok (array_zeros len), advance (S (Z.to_nat bursts)) w).
Proof.
  intros Hshort. destruct (randint_ok 2 4 w ltac:(lia)) as (n & Hn & Hdraw).
  exists n. split; [exact Hn |].
  unfold build_noise_track. rewrite (bind_ok _ _ _ _ _ Hdraw).
  rewrite (short_loop len rate mode noise_source _ _ _ Hshort).
  unfold range. rewrite length_seqZ, Z.sub_0_r.
  replace (set_rng (next_draw (rng w)) w) with (advance 1 w)
    by (unfold advance, next_draw; rewrite Nat.add_1_r; reflexivity).
  rewrite advance_advance. reflexivity.
Qed.

(** X5: when the track is no longer than a 200 ms burst, or the rate is not
    positive, every burst is skipped: [build_noise_track] returns the all-zero
    track, whose RMS is 0, after one draw for the count and one per burst. *)
Theorem short_track_is_silent (len rate : Z) (mode : string)
    (noise_source : option (list Z)) (w : World) :
  rate <= 0 \/ len <= dur_samples rate 200 ->
  exists bursts,
    2 <= bursts <= 4 /\
    build_noise_track len rate mode noise_source w
    = (Ok (array_zeros len), advance (S (Z.to_nat bursts)) w) /\
    rms (array_zeros len) = 0%R.
Proof.
  intros Hshort.
  destruct (build_noise_track_short len rate mode noise_source w Hshort)
    as (n & Hn & Hrun).
  exists n. split; [exact Hn |]. split; [exact Hrun |].
  apply rms_silent, Forall_replicate. reflexivity.
Qed.

Lemma short_track_is_silent_witness :
  exists bursts,
    2 <= bursts <= 4 /\
    build_noise_track 1600 8000 "white" None Inputs.world
    = (Ok (array_zeros 1600), advance (S (Z.to_nat bursts)) Inputs.world) /\
    rms (array_zeros 1600) = 0%R.
Proof.
  apply (short_track_is_silent 1600 8000 "white" None Inputs.world).
  right. vm_compute. discriminate.
Defined.



(** ** The noise track is an array of 16-bit samples *)

Lemma array_setitem_int16 (a a' : list Z) (i v : Z) :
  array_setitem a i v = Ok a' -> Forall is_int16 a -> Forall is_int16 a'.
Proof.
  unfold array_setitem. destruct (norm_index _ i) as [j |]; [| discriminate].
  destruct (int16b v) eqn:Hv; [| discriminate].
  intros [= <-] Ha. apply Forall_insert; [exact Ha |].
  unfold int16b in Hv. apply andb_prop in Hv as [H1 H2].
  apply Z.leb_le in H1, H2. split; assumption.
Qed.

Lemma burst_step_int16 (len rate : Z) (mode : string) (noise_source : option (list Z))
    (out out' : list Z) (w w' : World) :
  burst_step len rate mode noise_source out w = (Ok out', w') ->
  Forall is_int16 out -> Forall is_int16 out'.
Proof.
  unfold burst_step, bind at 1.
  destruct (place_burst len rate w) as [[[b |] | e] w1]; try discriminate.
  2:{ intros [= <- _] H. exact H. }
  destruct (String.eqb mode "white").
  - unfold fill_white. intros Hrun.
    refine (for_each_preserves (Forall is_int16) _ _ _ _ _ _ _ Hrun).
    intros i s v s' v' Hstep Hs. unfold white_body, bind, gauss, lift in Hstep.
    injection Hstep as Hset _. exact (array_setitem_int16 _ _ _ _ Hset Hs).
  - unfold fill_from_source. destruct noise_source as [[| x xs] |];
      try (intros [= <- _] H; exact H).
    destruct (Z.of_nat (length (x :: xs)) =? 0); [intros [= <- _] H; exact H |].
    intros Hrun.
    refine (for_each_preserves (Forall is_int16) _ _ _ _ _ _ _ Hrun).
    intros [idx pos] s v s' v' Hstep Hs. unfold source_body, bind, lift in Hstep.
    destruct (array_getitem (x :: xs) _) as [item | e]; [| discriminate].
    injection Hstep as Hset _. exact (array_setitem_int16 _ _ _ _ Hset Hs).
Qed.

(** X7: every track that [build_noise_track] returns holds only signed 16-bit
    samples, whatever the mode and the source. *)
Theorem noise_track_is_int16 (len rate : Z) (mode : string)
    (noise_source : option (list Z)) (track : list Z) (w w' : World) :
  build_noise_track len rate mode noise_source w = (Ok track, w') ->
  Forall is_int16 track.
Proof.
  unfold build_noise_track, bind at 1.
  destruct (randint 2 4 w) as [[bursts | e] w1]; [| discriminate].
  intros Hrun.
  refine (for_each_preserves (Forall is_int16) _ _ _ _ _ _ _ Hrun _).
  - intros _ s v s' v' Hstep Hs. exact (burst_step_int16 _ _ _ _ _ _ _ _ Hstep Hs).
  - apply Forall_replicate. unfold is_int16, INT16_MIN, INT16_MAX. lia.
Qed.

Lemma noise_track_is_int16_witness :
  Forall is_int16 [0; 0; 0; 5; -6; 7; 5; 5; -6; 7; 5; -6; 7; 5; -6; 7; 5; -6; 7; 0].
Proof.
  refine (noise_track_is_int16 20 40 "atc" (Some [5; -6; 7]) _ Inputs.world _ _).
  vm_compute. reflexivity.
Defined.

(** ** White-noise bursts *)

Lemma white_loop (k : nat) :
  forall (pos : Z) (out : list Z) (w : World),
    0 <= pos -> pos + Z.of_nat k <= Z.of_nat (length out) ->
    exists out',
      for_each (seqZ pos (Z.of_nat k)) white_body out w = (Ok out', advance k w) /\
      length out' = length out /\
      (forall j : nat, (j < k)%nat ->
         out' !! (Z.to_nat pos + j)%nat
         = Some (clamp_int16
                   (0 + 0.35 * 32767 * normal (rng w) (consumed (rng w) + j)%nat))) /\
      (forall p : nat, ~ (pos <= Z.of_nat p < pos + Z.of_nat k) -> out' !! p = out !! p).
Proof.
  induction k as [| k IH]; intros pos out w Hpos Hfit.
  - exists out. simpl. split.
    { unfold ret, advance, set_rng. rewrite Nat.add_0_r. destruct w as [? ? [? ? ?] ?]. reflexivity. }
    split; [reflexivity |]. split; intros; [lia | reflexivity].
  - rewrite (seqZ_cons _ (Z.of_nat (S k))) by lia.
    replace (Z.pred (Z.of_nat (S k))) with (Z.of_nat k) by lia.
    set (v := clamp_int16 (0 + 0.35 * 32767 * normal (rng w) (consumed (rng w)))).
    assert (Hstep : white_body pos out w = (Ok (<[Z.to_nat pos := v]> out), advance 1 w)).
    { unfold white_body, bind, gauss, lift. fold v.
      rewrite array_setitem_ok; [| lia | apply clamp_int16_range].
      unfold advance, next_draw. rewrite Nat.add_1_r. reflexivity. }
    destruct (IH (Z.succ pos) (<[Z.to_nat pos := v]> out) (advance 1 w)
                ltac:(lia) ltac:(rewrite length_insert; lia))
      as (out' & Hloop & Hlen & Hin & Hout).
    exists out'. cbn [for_each]. rewrite (bind_ok _ _ _ _ _ Hstep).
    rewrite Hloop, advance_advance. split; [reflexivity |].
    split; [rewrite Hlen; apply length_insert |]. split.
    + intros j Hj. destruct j as [| j].
      * rewrite !Nat.add_0_r, Hout by lia.
        rewrite list_lookup_insert_eq by lia. reflexivity.
      * specialize (Hin j ltac:(lia)).
        replace (Z.to_nat (Z.succ pos) + j)%nat with (Z.to_nat pos + S j)%nat in Hin by lia.
        rewrite Hin. cbn [advance set_rng rng consumed normal].
        do 5 f_equal. lia.
    + intros p Hp. rewrite Hout by lia. apply list_lookup_insert_ne. lia.
Qed.

(** X8: a white burst over [first, last) writes one clamped Gaussian draw per
    sample, in the order of the draws, and leaves the other samples alone. *)
Theorem white_burst_fill (first last : Z) (out : list Z) (w : World) :
  0 <= first <= last -> last <= Z.of_nat (length out) ->
  exists out',
    fill_white first last out w = (Ok out', advance (Z.to_nat (last - first)) w) /\
    length out' = length out /\
    (forall j : nat, Z.of_nat j < last - first ->
       out' !! (Z.to_nat first + j)%nat
       = Some (clamp_int16
                 (0 + 0.35 * 32767 * normal (rng w) (consumed (rng w) + j)%nat))) /\
    (forall p : nat, ~ (first <= Z.of_nat p < last) -> out' !! p = out !! p).
Proof.
  intros Hfirst Hlast. unfold fill_white, range.
  destruct (white_loop (Z.to_nat (last - first)) first out w ltac:(lia) ltac:(lia))
    as (out' & Hloop & Hlen & Hin & Hout).
  rewrite Z2Nat.id in Hloop by lia.
  exists out'. split; [exact Hloop |]. split; [exact Hlen |]. split.
  - intros j Hj. apply Hin. lia.
  - intros p Hp. apply Hout. lia.
Qed.

Lemma white_burst_fill_witness :
  exists out',
    fill_white 1 3 [9; 9; 9; 9] Inputs.world = (Ok out', advance 2 Inputs.world) /\
    out' !! 1%nat = Some (clamp_int16 (0 + 0.35 * 32767 * 0)) /\
    out' !! 3%nat = Some 9.
Proof.
  destruct (white_burst_fill 1 3 [9; 9; 9; 9] Inputs.world ltac:(lia) ltac:(simpl; lia))
    as (out' & Hrun & _ & Hin & Hout).
  exists out'. split; [exact Hrun |]. split.
  - exact (Hin 0%nat ltac:(lia)).
  - rewrite (Hout 3%nat) by lia. reflexivity.
Defined.

(** ** Failed runs *)



(** ** Concatenation *)

Lemma for_each_app {A S : Type} (xs ys : list A) (body : A -> S -> M S) (s : S) (w : World) :
  for_each (xs ++ ys) body s w
  = bind (for_each xs body s) (fun s' => for_each ys body s') w.
Proof.
  revert s w. induction xs as [| x rest IH]; intros s w; simpl; [reflexivity |].
  unfold bind. destruct (body x s w) as [[s1 | e] w1]; [| reflexivity].
  rewrite IH. reflexivity.
Qed.

Lemma read_input_world (path : Path) (acc : option (Z * Z * Z) * list (list Z)) (w : World) :
  snd (read_input path acc w) = w.
Proof.
  destruct acc as [params chunks]. unfold read_input, bind, wave_open_rb.
  destruct (fs w !! path) as [[f |] |]; try reflexivity.
  destruct (negb (nchannels f =? 1)); [reflexivity |].
  destruct (negb (sampwidth f =? 2)); [reflexivity |].
  destruct params as [p |]; [| reflexivity].
  destruct (negb (params_eqb p _)); reflexivity.
Qed.

Lemma read_loop_world (inputs : list Path) (acc : option (Z * Z * Z) * list (list Z)) (w : World) :
  snd (for_each inputs read_input acc w) = w.
Proof.
  revert acc. induction inputs as [| p rest IH]; intros acc; simpl; [reflexivity |].
  unfold bind. pose proof (read_input_world p acc w) as Hw.
  destruct (read_input p acc w) as [[acc1 | e] w1]; simpl in Hw; subst w1; [apply IH | reflexivity].
Qed.

Lemma read_input_accepts (path : Path) (f : WavFile) (r : Z) (params : option (Z * Z * Z))
    (chunks : list (list Z)) (w : World) :
  pcm16_mono_file w path f -> framerate f = r ->
  params = None \/ params = Some (1, 2, r) ->
  read_input path (params, chunks) w = (Ok (Some (1, 2, r), chunks ++ [frames f]), w).
Proof.
  intros (Hf & Hch & Hsw) Hr Hparams. unfold read_input, bind, wave_open_rb.
  rewrite Hf, Hch, Hsw, Hr. simpl.
  destruct Hparams as [-> | ->]; [reflexivity |].
  unfold params_eqb. rewrite !Z.eqb_refl. reflexivity.
Qed.

Lemma read_loop_accepts (r : Z) (w : World) (inputs : list Path) (files : list WavFile) :
  Forall2 (fun p f => pcm16_mono_file w p f /\ framerate f = r) inputs files ->
  forall (params : option (Z * Z * Z)) (chunks : list (list Z)),
    params = None \/ params = Some (1, 2, r) ->
    for_each inputs read_input (params, chunks) w
    = (Ok (match inputs with [] => params | _ => Some (1, 2, r) end,
           chunks ++ map frames files), w).
Proof.
  induction 1 as [| p f ps fs0 [Hfile Hrate] _ IH]; intros params chunks Hparams.
  - simpl. rewrite app_nil_r. reflexivity.
  - simpl. rewrite (bind_ok _ _ _ _ _ (read_input_accepts p f r params chunks w Hfile Hrate Hparams)).
    rewrite (IH (Some (1, 2, r)) (chunks ++ [frames f]) (or_intror eq_refl)).
    rewrite <- app_assoc. destruct ps; reflexivity.
Qed.

Lemma header_fits_smaller (rate : Z) (n m : nat) :
  header_fits 1 2 rate n = true -> (m <= n)%nat -> header_fits 1 2 rate m = true.
Proof.
  unfold header_fits, fits_uint32. intros Hn Hm.
  apply andb_prop in Hn as [Hn Hbyte]. apply andb_prop in Hn as [Hsize Hrate].
  apply andb_prop in Hsize as [_ Hsize]. apply Z.leb_le in Hsize.
  rewrite Hrate, Hbyte, !andb_true_r.
  apply andb_true_intro. split; apply Z.leb_le; lia.
Qed.

Lemma write_loop (output : Path) (rate : Z) (chunks : list (list Z)) :
  forall (written : list Z) (w : World),
    header_fits 1 2 rate (length (written ++ List.concat chunks)) = true ->
    (match fs w !! output with Some (Wav f) => frames f | _ => [] end) = written ->
    chunks <> [] \/ fs w !! output = Some (Wav (mkWav 1 2 rate written)) ->
    for_each chunks (fun chunk _ => wave_writeframes_more output 1 2 rate chunk) tt w
    = (Ok tt, mkWorld (<[output := Wav (mkWav 1 2 rate (written ++ List.concat chunks))]> (fs w))
                      (dirs w) (rng w) (stderr w)).
Proof.
  induction chunks as [| chunk rest IH]; intros written w Hfits Hwritten Hne.
  - destruct Hne as [Hne | Hfile]; [congruence |].
    simpl. rewrite app_nil_r. unfold ret. rewrite insert_id by exact Hfile.
    destruct w; reflexivity.
  - cbn [for_each List.concat]. unfold bind, wave_writeframes_more at 1.
    rewrite Hwritten.
    rewrite (header_fits_smaller rate _ _ Hfits)
      by (cbn [List.concat]; rewrite !length_app; lia).
    rewrite IH with (written := written ++ chunk).
    + cbn [fs dirs rng stderr]. rewrite insert_insert_eq, <- app_assoc. reflexivity.
    + rewrite <- app_assoc. exact Hfits.
    + cbn [fs]. rewrite lookup_insert_eq. reflexivity.
    + right. cbn [fs]. apply lookup_insert_eq.
Qed.

Lemma concat_run (output : Path) (inputs : list Path) (files : list WavFile) (r : Z)
    (w : World) :
  inputs <> [] ->
  Forall2 (fun p f => pcm16_mono_file w p f /\ framerate f = r) inputs files ->
  writable r (length (List.concat (map frames files))) ->
  concat_wavs output inputs w
  = (Done,
     mkWorld (<[output := Wav (mkWav 1 2 r (List.concat (map frames files)))]> (fs w))
             (dirs w ∪ list_to_set (path_ancestors (path_parent output)))
             (rng w) (stderr w)).
Proof.
  intros Hne Hfiles [Hrate Hfits]. unfold concat_wavs.
  destruct inputs as [| p ps]; [congruence |].
  rewrite (read_loop_accepts r w (p :: ps) files Hfiles None [] (or_introl eq_refl)).
  cbv beta iota.
  cbn [app]. unfold bind at 1, mkdir_parents at 1. cbv beta iota.
  unfold write_output, bind, wave_open_wb, wave_setnchannels, wave_setsampwidth,
    wave_setframerate.
  destruct (Z.leb_spec r 0) as [Hle | _]; [lia |].
  change (1 <? 1) with false. change ((2 <? 1) || (4 <? 2)) with false.
  unfold ret at 1 2 3. cbv beta iota.
  rewrite write_loop with (written := []).
  - cbn [fs dirs rng stderr app]. rewrite insert_insert_eq. reflexivity.
  - exact Hfits.
  - cbn [fs]. rewrite lookup_insert_eq. reflexivity.
  - left. inversion Hfiles; subst. discriminate.
Qed.

(** X10: for inputs that are all mono 16-bit containers at one rate,
    [concat_wavs] writes a container holding their frames joined in order,
    which [read_pcm16_mono] reads back. *)
Theorem concat_joins_frames (output : Path) (inputs : list Path) (files : list WavFile)
    (r : Z) (w : World) :
  inputs <> [] ->
  Forall2 (fun p f => pcm16_mono_file w p f /\ framerate f = r) inputs files ->
  writable r (length (List.concat (map frames files))) ->
  exists w',
    concat_wavs output inputs w = (Done, w') /\
    fs w' = <[output := Wav (mkWav 1 2 r (List.concat (map frames files)))]> (fs w) /\
    read_pcm16_mono output w' = (Ok (r, List.concat (map frames files)), w').
Proof.
  intros Hne Hfiles Hwr. eexists. split; [exact (concat_run _ _ _ _ _ Hne Hfiles Hwr) |].
  split; [reflexivity |].
  apply (read_pcm16_mono_ok output (mkWav 1 2 r (List.concat (map frames files))));
    [apply lookup_insert_eq | reflexivity | reflexivity].
Qed.

Lemma concat_joins_frames_witness :
  exists w',
    concat_wavs ["out"; "c.wav"]%string
      [["in"; "noise.wav"]; ["in"; "base.wav"]; ["in"; "noise.wav"]]%string Inputs.world
    = (Done, w') /\
    read_pcm16_mono ["out"; "c.wav"]%string w'
    = (Ok (8000, [5; -6; 7; 0; 0; 0; 0; 5; -6; 7]), w').
Proof.
  destruct (concat_joins_frames ["out"; "c.wav"]%string
              [["in"; "noise.wav"]; ["in"; "base.wav"]; ["in"; "noise.wav"]]%string
              [Inputs.noise_wav; Inputs.base_wav; Inputs.noise_wav] 8000 Inputs.world)
    as (w' & Hrun & _ & Hread).
  - discriminate.
  - repeat constructor; vm_compute; reflexivity.
  - split; [lia | vm_compute; reflexivity].
  - exists w'. split; [exact Hrun | exact Hread].
Defined.

Lemma read_loop_some (inputs : list Path) :
  forall (acc acc' : option (Z * Z * Z) * list (list Z)) (w w' : World),
    for_each inputs read_input acc w = (Ok acc', w') ->
    inputs <> [] \/ fst acc <> None -> fst acc' <> None.
Proof.
  induction inputs as [| p rest IH]; intros acc acc' w w' Hrun Hne.
  - simpl in Hrun. injection Hrun as <- _. destruct Hne; congruence.
  - simpl in Hrun. unfold bind in Hrun.
    destruct (read_input p acc w) as [[acc1 | e] w1] eqn:Hstep; [| discriminate].
    apply (IH acc1 acc' w1 w' Hrun). right.
    destruct acc as [params chunks]. unfold read_input, bind in Hstep.
    destruct (wave_open_rb p w) as [[wf | e] w0]; [| discriminate].
    destruct (negb (nchannels wf =? 1)); [discriminate |].
    destruct (negb (sampwidth wf =? 2)); [discriminate |].
    destruct params as [q |].
    + destruct (negb (params_eqb q _)); [discriminate |].
      injection Hstep as <- _. discriminate.
    + injection Hstep as <- _. discriminate.
Qed.

Lemma write_loop_raises (output : Path) (nch width rate : Z) (chunks : list (list Z))
    (w w' : World) (e : exn) :
  for_each chunks (fun chunk _ => wave_writeframes_more output nch width rate chunk) tt w
  = (Raise e, w') -> e = StructError.
Proof.
  revert w. induction chunks as [| chunk rest IH]; intros w; simpl; [discriminate |].
  unfold bind, wave_writeframes_more at 1.
  destruct (header_fits _ _ _ _); [apply IH | intros [= <- _]; reflexivity].
Qed.

(** X11: [concat_wavs] never fails its assertion, refuses an empty input
    list, and leaves the world as it was whenever it raises anything but the
    writer's errors. *)
Theorem concat_failures (output : Path) (inputs : list Path) (w : World) :
  fst (concat_wavs output inputs w) <> AssertionFailed /\
  (inputs = [] ->
     concat_wavs output inputs w = (Failed (ValueError "No input WAVs provided"), w)) /\
  (forall e,
     fst (concat_wavs output inputs w) = Failed e ->
     e <> WaveError -> e <> StructError ->
     snd (concat_wavs output inputs w) = w).
Proof.
  split; [| split].
  - unfold concat_wavs. destruct inputs as [| p ps]; [discriminate |].
    destruct (for_each (p :: ps) read_input (None, []) w) as [[[[q |] chunks] | e] w1] eqn:Hread;
      [| | discriminate].
    + destruct ((let* _ := mkdir_parents (path_parent output) in
                 write_output output q chunks) w1) as [[u | e] w2]; discriminate.
    + exfalso. apply (read_loop_some _ _ _ _ _ Hread); [left; discriminate | reflexivity].
  - intros ->. reflexivity.
  - intros e. unfold concat_wavs. destruct inputs as [| p ps]; [reflexivity |].
    pose proof (read_loop_world (p :: ps) (None, []) w) as Hw.
    destruct (for_each (p :: ps) read_input (None, []) w) as [[[[q |] chunks] | e1] w1];
      simpl in Hw; subst w1; [| discriminate | reflexivity].
    destruct q as [[nch width] rate].
    unfold bind at 1, mkdir_parents at 1. cbv beta iota.
    unfold write_output, bind at 1, wave_open_wb at 1. cbv beta iota.
    unfold bind at 1, wave_setnchannels.
    destruct (nch <? 1); [intros [= <-] Hne; congruence |].
    unfold ret at 1. cbv beta iota. unfold bind at 1, wave_setsampwidth.
    destruct ((width <? 1) || (4 <? width)); [intros [= <-] Hne; congruence |].
    unfold ret at 1. cbv beta iota. unfold bind at 1, wave_setframerate.
    destruct (rate <=? 0).
    + intros [= <-] Hne. congruence.
    + unfold ret at 1. cbv beta iota.
      match goal with |- context [for_each chunks ?b tt ?v] =>
        destruct (for_each chunks b tt v) as [[u | e2] w2] eqn:Hwrite end;
        [discriminate |].
      intros [= <-] _ Hne. apply write_loop_raises in Hwrite. congruence.
Qed.

(** X12: after inputs that are accepted, the first one that is not mono, not
    16-bit, or at another rate decides the [ValueError]; nothing is written. *)
Theorem concat_rejects (output : Path) (good : list Path) (files : list WavFile)
    (bad : Path) (f : WavFile) (rest : list Path) (r : Z) (w : World) :
  Forall2 (fun p g => pcm16_mono_file w p g /\ framerate g = r) good files ->
  fs w !! bad = Some (Wav f) ->
  (nchannels f <> 1 ->
     concat_wavs output (good ++ bad :: rest) w
     = (Failed (ValueError (path_str bad ++ " is not mono")), w)) /\
  (nchannels f = 1 -> sampwidth f <> 2 ->
     concat_wavs output (good ++ bad :: rest) w
     = (Failed (ValueError (path_str bad ++ " is not 16-bit PCM")), w)) /\
  (nchannels f = 1 -> sampwidth f = 2 -> framerate f <> r -> good <> [] ->
     concat_wavs output (good ++ bad :: rest) w
     = (Failed (ValueError ("Input format mismatch: " ++ str_of_params (1, 2, framerate f)
                            ++ " does not match " ++ str_of_params (1, 2, r))), w)).
Proof.
  intros Hgood Hbad.
  assert (Hloop : forall e,
            (forall params chunks, params = None \/ params = Some (1, 2, r) ->
               (good <> [] -> params = Some (1, 2, r)) ->
               read_input bad (params, chunks) w = (Raise e, w)) ->
            concat_wavs output (good ++ bad :: rest) w = (Failed e, w)).
  { intros e Hstep. unfold concat_wavs.
    destruct (good ++ bad :: rest) eqn:Hinputs; [destruct good; discriminate |].
    rewrite <- Hinputs. clear Hinputs.
    rewrite for_each_app. unfold bind at 1.
    rewrite (read_loop_accepts r w good files Hgood None [] (or_introl eq_refl)).
    cbn [for_each]. unfold bind at 1.
    rewrite Hstep; [reflexivity | destruct good; [left | right]; reflexivity |].
    intros Hne. destruct good; [congruence | reflexivity]. }
  split; [| split].
  - intros Hch. apply Hloop. intros params chunks _ _.
    unfold read_input, bind, wave_open_rb. rewrite Hbad.
    destruct (Z.eqb_spec (nchannels f) 1); [contradiction | reflexivity].
  - intros Hch Hsw. apply Hloop. intros params chunks _ _.
    unfold read_input, bind, wave_open_rb. rewrite Hbad, Hch.
    destruct (Z.eqb_spec (sampwidth f) 2); [contradiction | reflexivity].
  - intros Hch Hsw Hrate Hne. apply Hloop. intros params chunks _ Hparams.
    unfold read_input, bind, wave_open_rb. rewrite Hbad, Hch, Hsw, (Hparams Hne). simpl.
    destruct (Z.eqb_spec r (framerate f)); [congruence | reflexivity].
Qed.

Lemma concat_rejects_witness :
  concat_wavs ["out"; "c.wav"]%string
    [["in"; "noise.wav"]; ["in"; "fast.wav"]; ["in"; "base.wav"]]%string Inputs.world
  = (Failed (ValueError "Input format mismatch: (1, 2, 11025) does not match (1, 2, 8000)"),
     Inputs.world).
Proof.
  refine (proj2 (proj2 (concat_rejects ["out"; "c.wav"]%string [["in"; "noise.wav"]%string]
            [Inputs.noise_wav] ["in"; "fast.wav"]%string Inputs.fast_noise_wav
            [["in"; "base.wav"]%string] 8000 Inputs.world _ _)) _ _ _ _).
  - repeat constructor; vm_compute; reflexivity.
  - vm_compute. reflexivity.
  - reflexivity.
  - reflexivity.
  - vm_compute. discriminate.
  - discriminate.
Defined.

(** X22: concatenating in two steps gives the same frames as in one: joining
    [xs] into a temporary file and then that file with [ys] writes what
    joining [xs ++ ys] writes. *)
Theorem concat_in_two_steps (tmp output : Path) (xs ys : list Path)
    (fx fy : list WavFile) (r : Z) (w : World) :
  xs <> [] ->
  Forall2 (fun p f => pcm16_mono_file w p f /\ framerate f = r) xs fx ->
  Forall2 (fun p f => pcm16_mono_file w p f /\ framerate f = r) ys fy ->
  ~ In tmp ys ->
  writable r (length (List.concat (map frames (fx ++ fy)))) ->
  exists w1 w2 w3,
    concat_wavs tmp xs w = (Done, w1) /\
    concat_wavs output (tmp :: ys) w1 = (Done, w2) /\
    concat_wavs output (xs ++ ys) w = (Done, w3) /\
    fs w2 !! output = fs w3 !! output /\
    fs w3 !! output = Some (Wav (mkWav 1 2 r (List.concat (map frames (fx ++ fy))))).
Proof.
  intros Hne Hxs Hys Htmp Hwr.
  assert (Hwx : writable r (length (List.concat (map frames fx)))).
  { destruct Hwr as [Hr Hfits]. split; [exact Hr |].
    apply (header_fits_smaller r _ _ Hfits).
    rewrite map_app, concat_app, length_app. lia. }
  pose proof (concat_run tmp xs fx r w Hne Hxs Hwx) as Hrun1.
  set (w1 := mkWorld (<[tmp := Wav (mkWav 1 2 r (List.concat (map frames fx)))]> (fs w))
               (dirs w ∪ list_to_set (path_ancestors (path_parent tmp))) (rng w) (stderr w))
    in *.
  assert (Hys1 : Forall2 (fun p f => pcm16_mono_file w1 p f /\ framerate f = r)
                   (tmp :: ys) (mkWav 1 2 r (List.concat (map frames fx)) :: fy)).
  { constructor.
    - split; [| reflexivity]. split; [apply lookup_insert_eq | split; reflexivity].
    - clear Hwr. induction Hys as [| p f ps fs0 [(Hf & Hch & Hsw) Hrate] _ IH]; constructor.
      + split; [| exact Hrate]. split; [| split; assumption].
        cbn [fs w1]. rewrite lookup_insert_ne; [exact Hf |].
        intros ->. apply Htmp. left. reflexivity.
      + apply IH. intros Hin. apply Htmp. right. exact Hin. }
  assert (Hflat : List.concat (map frames (mkWav 1 2 r (List.concat (map frames fx)) :: fy))
                  = List.concat (map frames (fx ++ fy))).
  { cbn [map frames List.concat]. rewrite map_app, concat_app. reflexivity. }
  pose proof (concat_run output (tmp :: ys) _ r w1 ltac:(discriminate) Hys1
                ltac:(rewrite Hflat; exact Hwr)) as Hrun2.
  pose proof (concat_run output (xs ++ ys) (fx ++ fy) r w
                ltac:(destruct xs; [congruence | discriminate])
                (Forall2_app Hxs Hys) Hwr) as Hrun3.
  eexists. eexists. eexists.
  split; [exact Hrun1 |]. split; [exact Hrun2 |]. split; [exact Hrun3 |].
  cbn [fs]. rewrite !lookup_insert_eq, Hflat. split; reflexivity.
Qed.

Lemma concat_in_two_steps_witness :
  exists w1 w2 w3,
    concat_wavs ["tmp"; "t.wav"]%string [["in"; "noise.wav"]; ["in"; "base.wav"]]%string
      Inputs.world = (Done, w1) /\
    concat_wavs ["out"; "c.wav"]%string [["tmp"; "t.wav"]; ["in"; "noise.wav"]]%string w1
      = (Done, w2) /\
    concat_wavs ["out"; "c.wav"]%string
      [["in"; "noise.wav"]; ["in"; "base.wav"]; ["in"; "noise.wav"]]%string Inputs.world
      = (Done, w3) /\
    fs w2 !! (["out"; "c.wav"]%string : Path) = fs w3 !! (["out"; "c.wav"]%string : Path) /\
    fs w3 !! (["out"; "c.wav"]%string : Path)
      = Some (Wav (mkWav 1 2 8000 [5; -6; 7; 0; 0; 0; 0; 5; -6; 7])).
Proof.
  apply (concat_in_two_steps ["tmp"; "t.wav"]%string ["out"; "c.wav"]%string
           [["in"; "noise.wav"]; ["in"; "base.wav"]]%string [["in"; "noise.wav"]%string]
           [Inputs.noise_wav; Inputs.base_wav] [Inputs.noise_wav] 8000 Inputs.world).
  - discriminate.
  - repeat constructor; vm_compute; reflexivity.
  - repeat constructor; vm_compute; reflexivity.
  - intros [H | []]. discriminate.
  - split; [lia | vm_compute; reflexivity].
Defined.

(** ** The harness: error classes *)

Lemma truthy_spec (s : string) : truthy s = true <-> s <> EmptyString.
Proof.
  unfold truthy. destruct (String.eqb_spec s ""); simpl; split; congruence.
Qed.

Lemma truthy_false (s : string) : truthy s = false -> s = EmptyString.
Proof.
  unfold truthy. destruct (String.eqb_spec s ""); simpl; [intros _; assumption | discriminate].
Qed.

Lemma prefix_refl (s : string) : String.prefix s s = true.
Proof.
  induction s as [| c s IH]; [reflexivity |]. simpl.
  destruct (ascii_dec c c); [exact IH | congruence].
Qed.

Lemma prefix_antisym (a b : string) :
  String.prefix a b = true -> String.prefix b a = true -> a = b.
Proof.
  revert b. induction a as [| c a IH]; intros [| d b]; simpl; try discriminate; [reflexivity |].
  destruct (ascii_dec c d) as [-> | _]; [| discriminate].
  destruct (ascii_dec d d); [| congruence].
  intros H1 H2. f_equal. apply IH; assumption.
Qed.

Lemma prefix_of_empty (a : string) : String.prefix a "" = true -> a = EmptyString.
Proof. destruct a; [reflexivity | discriminate]. Qed.

(** X13: [classify_error] label by label: no error exactly for equal strings,
    a false positive exactly for an empty expectation, missing (extra) digits
    exactly when the decoded (expected) string is a proper prefix of the
    other, wrong digits otherwise; swapping two non-empty arguments exchanges
    missing and extra. *)
Theorem classify_error_spec (expected decoded : string) :
  (classify_error expected decoded = "" <-> expected = decoded) /\
  (classify_error expected decoded = "false positive"
     <-> expected = "" /\ decoded <> "") /\
  (classify_error expected decoded = "missing digits"
     <-> expected <> decoded /\ startswith expected decoded = true) /\
  (classify_error expected decoded = "extra digits"
     <-> expected <> "" /\ expected <> decoded /\ startswith decoded expected = true) /\
  (classify_error expected decoded = "wrong digits"
     <-> startswith expected decoded = false /\ startswith decoded expected = false) /\
  (expected <> "" -> decoded <> "" ->
     (classify_error expected decoded = "missing digits"
        <-> classify_error decoded expected = "extra digits") /\
     (classify_error expected decoded = "wrong digits"
        <-> classify_error decoded expected = "wrong digits")).
Proof.
  assert (Hcases :
    forall e d,
      (e = d /\ startswith e d = true /\ classify_error e d = "") \/
      (e <> d /\ e = "" /\ d <> "" /\ classify_error e d = "false positive"
         /\ startswith e d = false) \/
      (e <> d /\ e <> "" /\ startswith e d = true /\ startswith d e = false
         /\ classify_error e d = "missing digits") \/
      (e <> d /\ e <> "" /\ d <> "" /\ startswith e d = false /\ startswith d e = true
         /\ classify_error e d = "extra digits") \/
      (e <> d /\ e <> "" /\ d <> "" /\ startswith e d = false /\ startswith d e = false
         /\ classify_error e d = "wrong digits")).
  { intros e d. unfold classify_error, startswith.
    destruct (String.eqb_spec e d) as [Heq | Hne].
    { left. subst d. split; [reflexivity |]. split; [apply prefix_refl | reflexivity]. }
    right.
    destruct (truthy e) eqn:He; destruct (truthy d) eqn:Hd; simpl.
    - apply truthy_spec in He, Hd.
      destruct (String.prefix d e) eqn:Hde.
      + right. left. repeat split; try assumption.
        destruct (String.prefix e d) eqn:Hed; [| reflexivity].
        exfalso. apply Hne. apply prefix_antisym; assumption.
      + destruct (String.prefix e d) eqn:Hed.
        * right. right. left. repeat split; assumption.
        * right. right. right. repeat split; assumption.
    - apply truthy_spec in He. apply truthy_false in Hd. subst d.
      right. left. destruct e as [| c e]; [congruence |].
      repeat split; try assumption; reflexivity.
    - apply truthy_spec in Hd. apply truthy_false in He. subst e.
      left. destruct d as [| c d]; [congruence |].
      repeat split; try assumption; reflexivity.
    - apply truthy_false in He, Hd. congruence. }
  pose proof (Hcases expected decoded) as H1.
  pose proof (Hcases decoded expected) as H2.
  destruct H1 as [(? & ? & Hc1) | [(? & ? & ? & Hc1 & ?) | [(? & ? & ? & ? & Hc1)
             | [(? & ? & ? & ? & ? & Hc1) | (? & ? & ? & ? & ? & Hc1)]]]];
    destruct H2 as [(? & ? & Hc2) | [(? & ? & ? & Hc2 & ?) | [(? & ? & ? & ? & Hc2)
               | [(? & ? & ? & ? & ? & Hc2) | (? & ? & ? & ? & ? & Hc2)]]]];
    rewrite ?Hc1, ?Hc2; try congruence;
    repeat split; intros; try discriminate; try congruence; try tauto;
    try (exfalso; intuition congruence).
Qed.

(** ** The harness: statistics *)

Lemma length_append (a b : string) :
  String.length (a ++ b) = (String.length a + String.length b)%nat.
Proof. induction a as [| c a IH]; simpl; [reflexivity | rewrite IH; reflexivity]. Qed.

Lemma has_char_append (x : ascii) (a b : string) :
  has_char x (a ++ b) = has_char x a || has_char x b.
Proof.
  induction a as [| c a IH]; simpl; [reflexivity |]. rewrite IH, orb_assoc. reflexivity.
Qed.

Lemma snr_key_shape (c : string) (s : option string) :
  exists tail, snr_key c s = (c ++ String "@" tail)%string.
Proof.
  unfold snr_key. destruct s as [s |]; [destruct (truthy s) |]; eexists; reflexivity.
Qed.

Lemma snr_key_differs (c : string) (s : option string) : c <> snr_key c s.
Proof.
  destruct (snr_key_shape c s) as (tail & ->). intros Heq.
  apply (f_equal String.length) in Heq. rewrite length_append in Heq. simpl in Heq. lia.
Qed.

Lemma snr_key_has_at (c : string) (s : option string) : has_char "@" (snr_key c s) = true.
Proof.
  destruct (snr_key_shape c s) as (tail & ->). rewrite has_char_append. simpl.
  apply orb_true_r.
Qed.

Lemma bump_lookup (key k : string) (ok : bool) (stats : gmap string Bucket) :
  bump key ok stats !! k
  = if String.eqb key k
    then Some (mkBucket (total_of stats key + 1)
                        (success_of stats key + (if ok then 1 else 0)))
    else stats !! k.
Proof.
  unfold bump, total_of, success_of.
  destruct (String.eqb_spec key k) as [<- | Hne].
  - rewrite lookup_insert_eq. destruct (stats !! key) as [b |], ok; simpl;
      rewrite ?Z.add_0_r; reflexivity.
  - apply lookup_insert_ne. exact Hne.
Qed.

(** X14: one call of [record_stats] bumps exactly two different buckets, the
    condition's and the condition-at-SNR one, once each, and no other. *)
Theorem record_stats_effect (stats : gmap string Bucket) (c : string)
    (s : option string) (ok : bool) :
  let key := snr_key c s in
  let gain := if ok then 1 else 0 in
  c <> key /\
  record_stats stats c s ok !! c
    = Some (mkBucket (total_of stats c + 1) (success_of stats c + gain)) /\
  record_stats stats c s ok !! key
    = Some (mkBucket (total_of stats key + 1) (success_of stats key + gain)) /\
  (forall k, k <> c -> k <> key -> record_stats stats c s ok !! k = stats !! k).
Proof.
  intros key gain. pose proof (snr_key_differs c s) as Hne. fold key in Hne.
  unfold record_stats. fold key. split; [exact Hne |]. split; [| split].
  - rewrite !bump_lookup.
    destruct (String.eqb_spec key c); [congruence |]. rewrite String.eqb_refl. reflexivity.
  - rewrite bump_lookup, String.eqb_refl.
    unfold total_of, success_of. rewrite bump_lookup.
    destruct (String.eqb_spec c key); [congruence | reflexivity].
  - intros k Hc Hk. rewrite !bump_lookup.
    destruct (String.eqb_spec key k); [congruence |].
    destruct (String.eqb_spec c k); [congruence | reflexivity].
Qed.

Lemma total_of_bump (key k : string) (ok : bool) (stats : gmap string Bucket) :
  total_of (bump key ok stats) k
  = total_of stats k + (if String.eqb key k then 1 else 0).
Proof.
  unfold total_of at 1. rewrite bump_lookup.
  destruct (String.eqb_spec key k) as [<- | _]; [reflexivity | unfold total_of; lia].
Qed.

Lemma success_of_bump (key k : string) (ok : bool) (stats : gmap string Bucket) :
  success_of (bump key ok stats) k
  = success_of stats k + (if String.eqb key k then (if ok then 1 else 0) else 0).
Proof.
  unfold success_of at 1. rewrite bump_lookup.
  destruct (String.eqb_spec key k) as [<- | _]; [reflexivity | unfold success_of; lia].
Qed.

Lemma is_Some_bump (key k : string) (ok : bool) (stats : gmap string Bucket) :
  is_Some (bump key ok stats !! k) <-> is_Some (stats !! k) \/ key = k.
Proof.
  rewrite bump_lookup. destruct (String.eqb_spec key k) as [<- | Hne].
  - split; [intros _; right; reflexivity | intros _; eauto].
  - split; [intros H; left; exact H | intros [H | H]; [exact H | congruence]].
Qed.

Lemma record_stats_counts (stats : gmap string Bucket) (c : string) (s : option string)
    (ok : bool) (k : string) :
  let hits := (if String.eqb c k then 1 else 0) + (if String.eqb (snr_key c s) k then 1 else 0) in
  total_of (record_stats stats c s ok) k = total_of stats k + hits /\
  success_of (record_stats stats c s ok) k = success_of stats k + (if ok then hits else 0) /\
  (is_Some (record_stats stats c s ok !! k) <-> is_Some (stats !! k) \/ 0 < hits).
Proof.
  intros hits. subst hits. unfold record_stats.
  rewrite !total_of_bump, !success_of_bump, !is_Some_bump.
  destruct (String.eqb_spec (snr_key c s) k) as [Hk | Hk];
    destruct (String.eqb_spec c k) as [Hc | Hc]; destruct ok;
    (split; [lia |]; split; [lia |]; split; [intros; intuition lia | intuition lia]).
Qed.

Lemma bumps_cons (key c : string) (s : option string) (ok : bool)
    (rest : list (string * option string * bool)) :
  bumps key ((c, s, ok) :: rest)
  = (if String.eqb c key then 1 else 0)
    + (if String.eqb (snr_key c s) key then 1 else 0) + bumps key rest.
Proof.
  unfold bumps. cbn [List.filter].
  destruct (String.eqb c key), (String.eqb (snr_key c s) key); cbn [length]; lia.
Qed.

Lemma wins_cons (key c : string) (s : option string) (ok : bool)
    (rest : list (string * option string * bool)) :
  wins key ((c, s, ok) :: rest)
  = (if ok then (if String.eqb c key then 1 else 0)
                + (if String.eqb (snr_key c s) key then 1 else 0) else 0)
    + wins key rest.
Proof.
  unfold wins. cbn [List.filter]. destruct ok; [rewrite bumps_cons |]; lia.
Qed.

Lemma bumps_bounds (key : string) (samples : list (string * option string * bool)) :
  0 <= wins key samples <= bumps key samples.
Proof.
  induction samples as [| [[c s] ok] rest IH].
  - unfold wins, bumps. simpl. lia.
  - rewrite wins_cons, bumps_cons.
    destruct ok, (String.eqb c key), (String.eqb (snr_key c s) key); lia.
Qed.

(** X15: after any run of samples every bucket holds the number of samples
    that bumped it and the number of successes among them, with
    [0 <= success <= total]; a key without [@] counts the samples of that
    condition. *)
Theorem record_all_counts (samples : list (string * option string * bool))
    (stats : gmap string Bucket) (key : string) :
  total_of (record_all samples stats) key = total_of stats key + bumps key samples /\
  success_of (record_all samples stats) key = success_of stats key + wins key samples /\
  (is_Some (record_all samples stats !! key)
     <-> is_Some (stats !! key) \/ 0 < bumps key samples) /\
  0 <= wins key samples <= bumps key samples /\
  (has_char "@" key = false ->
     bumps key samples
     = Z.of_nat (length (List.filter (fun '(c, _, _) => String.eqb c key) samples))).
Proof.
  split; [| split; [| split; [| split]]].
  - revert stats. induction samples as [| [[c s] ok] rest IH]; intros stats.
    + unfold bumps. simpl. lia.
    + cbn [record_all fold_left]. fold (record_all rest (record_stats stats c s ok)).
      rewrite IH, bumps_cons.
      destruct (record_stats_counts stats c s ok key) as (Ht & _). rewrite Ht. lia.
  - revert stats. induction samples as [| [[c s] ok] rest IH]; intros stats.
    + unfold wins, bumps. simpl. lia.
    + cbn [record_all fold_left]. fold (record_all rest (record_stats stats c s ok)).
      rewrite IH, wins_cons.
      destruct (record_stats_counts stats c s ok key) as (_ & Hs & _). rewrite Hs.
      destruct ok; lia.
  - revert stats. induction samples as [| [[c s] ok] rest IH]; intros stats.
    + unfold bumps. simpl. split; [intros H; left; exact H | intros [H | H]; [exact H | lia]].
    + cbn [record_all fold_left]. fold (record_all rest (record_stats stats c s ok)).
      rewrite IH, bumps_cons.
      destruct (record_stats_counts stats c s ok key) as (_ & _ & Hi). rewrite Hi.
      pose proof (bumps_bounds key rest).
      destruct (String.eqb c key), (String.eqb (snr_key c s) key); intuition lia.
  - apply bumps_bounds.
  - intros Hat. unfold bumps.
    replace (List.filter (fun '(c, s, _) => String.eqb (snr_key c s) key) samples)
      with (@nil (string * option string * bool)); [simpl; lia |].
    induction samples as [| [[c s] ok] rest IH]; [reflexivity |].
    cbn [List.filter]. destruct (String.eqb_spec (snr_key c s) key) as [Heq | _]; [| exact IH].
    rewrite <- Heq, snr_key_has_at in Hat. discriminate.
Qed.

(** ** Metadata parsing in the harness and in the reporter *)

Lemma prefix_cons (a b : ascii) (s1 s2 : string) :
  String.prefix (String a s1) (String b s2)
  = if Ascii.eqb a b then String.prefix s1 s2 else false.
Proof.
  cbn [String.prefix]. destruct (ascii_dec a b) as [-> | Hne].
  - rewrite Ascii.eqb_refl. reflexivity.
  - apply Ascii.eqb_neq in Hne. rewrite Hne. reflexivity.
Qed.

Lemma snr_not_silence (t : string) :
  String.prefix "snr_" t = true -> String.prefix "silence" t = false.
Proof.
  destruct t as [| c1 [| c2 t]]; [discriminate | |].
  - rewrite !prefix_cons. destruct (Ascii.eqb "s" c1); discriminate.
  - rewrite !prefix_cons.
    destruct (Ascii.eqb_spec "s" c1) as [<- | _]; [| discriminate].
    destruct (Ascii.eqb_spec "n" c2) as [<- | _]; [| discriminate].
    intros _. reflexivity.
Qed.

Lemma noise_not_silence (t : string) :
  String.prefix "noise_" t = true -> String.prefix "silence" t = false.
Proof.
  destruct t as [| c1 t]; [discriminate |].
  rewrite !prefix_cons.
  destruct (Ascii.eqb_spec "n" c1) as [<- | _]; [| discriminate].
  intros _. reflexivity.
Qed.

Lemma parse_token_agrees (t : string) (acc : option string * option string * option string) :
  code_of (Harness.parse_token t acc)
  = if String.eqb t "noise_only" then code_of acc
    else Reporter.parse_token t (code_of acc).
Proof.
  destruct acc as [[code snr] noise_type].
  destruct (String.eqb_spec t "noise_only") as [-> | Hne]; [reflexivity |].
  unfold Harness.parse_token, Reporter.parse_token, startswith.
  destruct (String.prefix "code_" t); [reflexivity |].
  destruct (String.prefix "snr_" t) eqn:Hsnr.
  { rewrite (snr_not_silence t Hsnr).
    destruct (String.eqb_spec t "noise_only"); [contradiction | reflexivity]. }
  destruct (String.prefix "noise_" t) eqn:Hnoise.
  { rewrite (noise_not_silence t Hnoise).
    destruct (String.eqb_spec t "noise_only"); [contradiction | reflexivity]. }
  destruct (String.eqb_spec t "noise_only"); [contradiction |]. simpl.
  destruct (String.prefix "silence" t); reflexivity.
Qed.

Lemma parse_tokens_agree (tokens : list string) :
  forall (acc : option string * option string * option string),
    code_of (fold_left (fun a t => Harness.parse_token t a) tokens acc)
    = fold_left (fun c t => Reporter.parse_token t c)
        (List.filter (fun t => negb (String.eqb t "noise_only")) tokens) (code_of acc).
Proof.
  induction tokens as [| t rest IH]; intros acc; [reflexivity |].
  cbn [fold_left List.filter]. rewrite IH, parse_token_agrees.
  destruct (String.eqb t "noise_only"); reflexivity.
Qed.

Lemma filter_all {A : Type} (f : A -> bool) (l : list A) :
  (forall x, In x l -> f x = true) -> List.filter f l = l.
Proof.
  induction l as [| x l IH]; intros H; [reflexivity |]. simpl.
  rewrite (H x (or_introl eq_refl)), IH; [reflexivity |].
  intros y Hy. apply H. right. exact Hy.
Qed.

(** X16: the harness and the reporter read the same code from a stem unless a
    token is [noise_only]: the harness files that token under [noise_] and
    keeps the code, the reporter clears the code. *)
Theorem parse_metadata_codes (stem : string) :
  let tokens := str_split stem "_" "_" in
  code (Harness.parse_metadata stem)
  = fold_left (fun c t => Reporter.parse_token t c)
      (List.filter (fun t => negb (String.eqb t "noise_only")) tokens) "" /\
  (~ In "noise_only"%string tokens ->
     code (Harness.parse_metadata stem) = fst (Reporter.parse_metadata stem)) /\
  (forall c s n,
     Harness.parse_token "noise_only" (c, s, n) = (c, s, Some "only"%string) /\
     Reporter.parse_token "noise_only" (code_of (c, s, n)) = "").
Proof.
  intros tokens.
  assert (Hcode : code (Harness.parse_metadata stem)
                  = code_of (fold_left (fun a t => Harness.parse_token t a) tokens
                               (None, None, None))).
  { unfold Harness.parse_metadata. fold tokens.
    destruct (fold_left _ tokens (None, None, None)) as [[[c |] s] n]; reflexivity. }
  split; [| split].
  - rewrite Hcode. apply parse_tokens_agree.
  - intros Hno. rewrite Hcode, parse_tokens_agree. unfold Reporter.parse_metadata.
    fold tokens. cbn [fst code_of]. f_equal. apply filter_all.
    intros t Ht. destruct (String.eqb_spec t "noise_only") as [-> | _]; [contradiction | reflexivity].
  - intros c s n. split; reflexivity.
Qed.

(** ** [str.split] joins back *)

Lemma split_scan_skip (sep cur suf s : string) :
  split_scan sep (String.length suf) cur (suf ++ s) = split_scan sep O cur s.
Proof.
  induction suf as [| c suf IH]; simpl; [destruct s; reflexivity | exact IH].
Qed.

Lemma split_scan_nonempty (sep : string) (s : string) :
  forall (k : nat) (cur : string), split_scan sep k cur s <> [].
Proof.
  induction s as [| c s IH]; intros k cur; cbn [split_scan]; [discriminate |].
  destruct k; [| apply IH].
  destruct (String.prefix sep (String c s)); [intros H; discriminate H | apply IH].
Qed.

Lemma prefix_decompose (p s : string) :
  String.prefix p s = true -> exists t, s = (p ++ t)%string.
Proof.
  revert s. induction p as [| a p IH]; intros s Hp; [exists s; reflexivity |].
  destruct s as [| b s]; [discriminate |]. rewrite prefix_cons in Hp.
  destruct (Ascii.eqb_spec a b) as [<- | _]; [| discriminate].
  destruct (IH s Hp) as (t & ->). exists t. reflexivity.
Qed.

Lemma append_assoc (a b c : string) : ((a ++ b) ++ c = a ++ (b ++ c))%string.
Proof.
  induction a as [| x a IH]; [reflexivity |].
  change (String x ((a ++ b) ++ c) = String x (a ++ (b ++ c)))%string.
  f_equal. exact IH.
Qed.

Lemma concat_cons (sep x : string) (xs : list string) :
  xs <> [] -> String.concat sep (x :: xs) = (x ++ sep ++ String.concat sep xs)%string.
Proof. destruct xs; [congruence | reflexivity]. Qed.

Lemma append_empty_r (s : string) : (s ++ "")%string = s.
Proof.
  induction s as [| c s IH]; [reflexivity |].
  change (String c (s ++ "") = String c s)%string. f_equal. exact IH.
Qed.

(** ["__".join(stem.split("__")) == stem], for any non-empty separator. *)
Lemma str_split_join (sep_head : ascii) (sep_tail s : string) :
  String.concat (String sep_head sep_tail) (str_split s sep_head sep_tail) = s.
Proof.
  unfold str_split. set (sep := String sep_head sep_tail).
  enough (H : forall (n : nat) (s cur : string), (String.length s <= n)%nat ->
            String.concat sep (split_scan sep O cur s) = (cur ++ s)%string)
    by (apply (H (String.length s)); lia).
  clear s. induction n as [| n IH]; intros s cur Hn.
  - destruct s; [| simpl in Hn; lia]. cbn [split_scan String.concat].
    symmetry. apply append_empty_r.
  - destruct s as [| c s].
    { cbn [split_scan String.concat]. symmetry. apply append_empty_r. }
    cbn [split_scan]. destruct (String.prefix sep (String c s)) eqn:Hp.
    + destruct (prefix_decompose _ _ Hp) as (t & Ht).
      unfold sep in Ht. injection Ht as <- ->.
      replace (Nat.pred (String.length sep)) with (String.length sep_tail) by reflexivity.
      rewrite split_scan_skip.
      rewrite concat_cons by apply split_scan_nonempty.
      rewrite IH by (simpl in Hn; rewrite length_append in Hn; lia).
      reflexivity.
    + rewrite IH by (simpl in Hn; lia). rewrite append_assoc. reflexivity.
Qed.

(** X17: the condition that the harness reads is the first token of the stem:
    the tokens join back to the stem with [__], so the fallback for an empty
    token list is never taken and the condition is a prefix of the stem. *)
Theorem parse_metadata_condition (stem : string) :
  exists rest,
    str_split stem "_" "_" = condition (Harness.parse_metadata stem) :: rest /\
    String.concat "__" (condition (Harness.parse_metadata stem) :: rest) = stem /\
    startswith stem (condition (Harness.parse_metadata stem)) = true.
Proof.
  pose proof (str_split_join "_" "_" stem) as Hjoin.
  pose proof (split_scan_nonempty "__" stem O "") as Hne.
  unfold Harness.parse_metadata.
  change (split_scan "__" 0 "" stem) with (str_split stem "_" "_") in Hne.
  destruct (str_split stem "_" "_") as [| t rest] eqn:Htokens; [congruence |].
  destruct (fold_left _ (t :: rest) (None, None, None)) as [[c s] n].
  cbn [condition]. exists rest. split; [reflexivity |]. split; [exact Hjoin |].
  unfold startswith. rewrite <- Hjoin at 1.
  destruct rest as [| t2 rest]; [apply prefix_refl |].
  rewrite concat_cons by discriminate. apply prefix_app.
Qed.

(** ** The percentile of the reporter *)

Lemma insert_sorted_perm (x : R) (l : list R) : insert_sorted x l ≡ₚ x :: l.
Proof.
  induction l as [| y rest IH]; [reflexivity |]. simpl.
  destruct (Rle_dec x y); [reflexivity |].
  rewrite IH. apply Permutation_swap.
Qed.

Lemma sorted_perm (l : list R) : sorted l ≡ₚ l.
Proof.
  induction l as [| x rest IH]; [reflexivity |].
  simpl. rewrite insert_sorted_perm, IH. reflexivity.
Qed.

Lemma insert_sorted_sorted (x : R) (l : list R) :
  StronglySorted Rle l -> StronglySorted Rle (insert_sorted x l).
Proof.
  induction 1 as [| y rest Hrest IH Hall]; simpl; [repeat constructor |].
  destruct (Rle_dec x y) as [Hle | Hgt].
  - constructor; [constructor; assumption |].
    constructor; [exact Hle |].
    rewrite List.Forall_forall in *. intros z Hz. specialize (Hall z Hz). lra.
  - constructor; [exact IH |].
    rewrite List.Forall_forall in *. intros z Hz.
    apply (Permutation_in _ (insert_sorted_perm x rest)) in Hz.
    destruct Hz as [<- | Hz]; [lra | apply Hall; exact Hz].
Qed.

Lemma sorted_sorted (l : list R) : StronglySorted Rle (sorted l).
Proof.
  induction l as [| x rest IH]; [constructor | apply insert_sorted_sorted; exact IH].
Qed.

Lemma sorted_lookup_le (l : list R) :
  StronglySorted Rle l ->
  forall (i j : nat) (a b : R),
    (i <= j)%nat -> l !! i = Some a -> l !! j = Some b -> (a <= b)%R.
Proof.
  induction 1 as [| y rest Hrest IH Hall]; intros i j a b Hij Ha Hb; [discriminate |].
  destruct i as [| i], j as [| j]; simpl in *; try lia.
  - injection Ha as <-. injection Hb as <-. lra.
  - injection Ha as <-. rewrite List.Forall_forall in Hall. apply Hall.
    apply list_elem_of_In. apply list_elem_of_lookup. eauto.
  - apply (IH i j); [lia | assumption | assumption].
Qed.

Lemma insert_sorted_comm (x y : R) (l : list R) :
  insert_sorted x (insert_sorted y l) = insert_sorted y (insert_sorted x l).
Proof.
  induction l as [| z rest IH]; simpl.
  - destruct (Rle_dec x y), (Rle_dec y x); try reflexivity; [f_equal; [lra | f_equal; lra] | lra].
  - destruct (Rle_dec y z) as [Hyz | Hyz], (Rle_dec x z) as [Hxz | Hxz]; simpl.
    + destruct (Rle_dec x y), (Rle_dec y x); simpl;
        repeat (destruct (Rle_dec _ _); try lra); try reflexivity.
      assert (x = y) by lra. subst. reflexivity.
    + destruct (Rle_dec x y); [lra |]. destruct (Rle_dec x z); [lra |].
      destruct (Rle_dec y z); [reflexivity | lra].
    + destruct (Rle_dec y x); [lra |]. destruct (Rle_dec y z); [lra |].
      destruct (Rle_dec x z); [reflexivity | lra].
    + destruct (Rle_dec x z); [lra |]. destruct (Rle_dec y z); [lra |].
      rewrite IH. reflexivity.
Qed.

Lemma sorted_of_perm (l l' : list R) : l ≡ₚ l' -> sorted l = sorted l'.
Proof.
  induction 1 as [| x l l' _ IH | x y l | l1 l2 l3 _ IH1 _ IH2]; simpl.
  - reflexivity.
  - rewrite IH. reflexivity.
  - apply insert_sorted_comm.
  - congruence.
Qed.

Lemma int_of_float_nonneg (x : R) :
  (0 <= x)%R -> (IZR (int_of_float x) <= x < IZR (int_of_float x) + 1)%R /\ 0 <= int_of_float x.
Proof.
  intros Hx. unfold int_of_float. destruct (Rle_dec 0 x); [| contradiction].
  pose proof (Int_part_bounds x) as Hb. split; [exact Hb |].
  apply Zlt_succ_le, lt_IZR. rewrite succ_IZR. lra.
Qed.

Lemma list_getitem_ok (l : list R) (i : Z) :
  0 <= i < Z.of_nat (length l) ->
  exists v, l !! Z.to_nat i = Some v /\ list_getitem l i = Ok v.
Proof.
  intros Hi. unfold list_getitem. rewrite norm_index_in_range by exact Hi.
  destruct (lookup_lt_is_Some_2 l (Z.to_nat i)) as [v Hv]; [lia |].
  exists v. rewrite Hv. split; reflexivity.
Qed.

(** The interpolation of [percentile] on two or more values, for a
    percentage between 0 and 100. *)
Lemma percentile_run (values : list R) (pct : R) :
  (2 <= length values)%nat -> (0 <= pct <= 100)%R ->
  let ordered := sorted values in
  let k := (IZR (Z.of_nat (length values) - 1) * pct / 100)%R in
  exists (lower upper : nat) (a b : R),
    ordered !! lower = Some a /\ ordered !! upper = Some b /\
    (lower <= upper)%nat /\ (upper < length values)%nat /\
    (upper = lower \/ upper = S lower) /\
    (INR lower <= k)%R /\ (k < INR lower + 1)%R /\ (a <= b)%R /\
    (upper = lower -> k = INR lower) /\
    percentile values pct = Ok (Finite (a * (1 - (k - INR lower)) + b * (k - INR lower))).
Proof.
  intros Hlen Hpct ordered k.
  assert (Hn : length ordered = length values) by (apply Permutation_length, sorted_perm).
  set (n := Z.of_nat (length values)) in *.
  assert (Hn2 : 2 <= n) by (unfold n; lia).
  assert (Hk : (0 <= k <= IZR (n - 1))%R).
  { unfold k. assert (0 <= IZR (n - 1))%R by (apply IZR_le; lia). split; nra. }
  destruct (int_of_float_nonneg k (proj1 Hk)) as [[Hlo Hhi] Hnonneg].
  set (lower := int_of_float k) in *.
  assert (Hlower : lower <= n - 1) by (apply le_IZR; lra).
  set (upper := Z.min (lower + 1) (n - 1)).
  destruct (list_getitem_ok ordered lower ltac:(rewrite Hn; fold n; lia)) as (a & Ha & Hga).
  destruct (list_getitem_ok ordered upper ltac:(rewrite Hn; fold n; unfold upper; lia))
    as (b & Hb & Hgb).
  exists (Z.to_nat lower), (Z.to_nat upper), a, b.
  assert (HINR : INR (Z.to_nat lower) = IZR lower)
    by (rewrite INR_IZR_INZ, Z2Nat.id by lia; reflexivity).
  rewrite HINR.
  split; [exact Ha |]. split; [exact Hb |].
  split; [unfold upper; lia |]. split; [unfold upper, n in *; lia |].
  split; [unfold upper; lia |]. split; [exact Hlo |]. split; [exact Hhi |].
  split; [apply (sorted_lookup_le ordered (sorted_sorted values) (Z.to_nat lower)
                   (Z.to_nat upper)); [unfold upper; lia | exact Ha | exact Hb] |].
  split.
  - intros Hsame. assert (H : lower = n - 1) by (unfold upper in Hsame; lia).
    assert (HR : IZR lower = IZR (n - 1)) by (f_equal; exact H). lra.
  - unfold percentile. destruct values as [| v1 [| v2 rest]]; [simpl in Hlen; lia .. |].
    fold ordered. rewrite Hn. fold n. fold k. fold lower. fold upper.
    rewrite Hga, Hgb. reflexivity.
Qed.


Lemma sorted_In (values : list R) (i : nat) (x : R) :
  sorted values !! i = Some x -> In x values.
Proof.
  intros Hx. apply list_elem_of_In. rewrite <- (sorted_perm values).
  apply list_elem_of_lookup. eauto.
Qed.


(** X19: percentile 0 is the minimum of the values and percentile 100 their
    maximum. *)
Theorem percentile_endpoints (values : list R) :
  values <> [] ->
  exists lo hi,
    percentile values 0 = Ok (Finite lo) /\
    percentile values 100 = Ok (Finite hi) /\
    In lo values /\ In hi values /\
    forall x, In x values -> (lo <= x <= hi)%R.
Proof.
  intros Hne. destruct values as [| v1 [| v2 rest]]; [congruence | |].
  - exists v1, v1. repeat split; try (left; reflexivity);
      destruct H as [<- | []]; lra.
  - set (values := v1 :: v2 :: rest) in *.
    destruct (percentile_run values 0 ltac:(simpl; lia) ltac:(lra))
      as (l0 & u0 & a0 & b0 & Ha0 & Hb0 & _ & _ & _ & Hlo0 & Hhi0 & _ & _ & Hrun0).
    destruct (percentile_run values 100 ltac:(simpl; lia) ltac:(lra))
      as (l1 & u1 & a1 & b1 & Ha1 & Hb1 & Hlu1 & Hu1 & Hor1 & Hlo1 & Hhi1 & _ & Hsame1 & Hrun1).
    cbv zeta in *.
    set (n := Z.of_nat (length values)) in *.
    assert (Hl0 : l0 = 0%nat).
    { replace (IZR (n - 1) * 0 / 100)%R with 0%R in * by lra.
      destruct l0; [reflexivity |]. rewrite S_INR in Hlo0. pose proof (pos_INR l0). lra. }
    subst l0. replace (IZR (n - 1) * 0 / 100)%R with 0%R in Hrun0 by lra.
    replace (IZR (n - 1) * 100 / 100)%R with (IZR (n - 1)) in * by lra.
    assert (Hl1 : l1 = (length values - 1)%nat).
    { assert (H1 : (INR l1 <= INR (length values - 1))%R).
      { rewrite (INR_IZR_INZ (length values - 1)).
        replace (Z.of_nat (length values - 1)) with (n - 1) by (unfold n; simpl; lia). exact Hlo1. }
      assert (H2 : (INR (length values - 1) < INR l1 + 1)%R).
      { rewrite (INR_IZR_INZ (length values - 1)).
        replace (Z.of_nat (length values - 1)) with (n - 1) by (unfold n; simpl; lia). exact Hhi1. }
      apply INR_le in H1. rewrite <- S_INR in H2. apply INR_lt in H2. lia. }
    assert (Hu1' : u1 = l1) by lia.
    assert (Hw1 : (IZR (n - 1) - INR l1 = 0)%R) by (rewrite (Hsame1 Hu1'); lra).
    rewrite Hw1 in Hrun1. simpl INR in Hrun0.
    exists a0, a1. split; [rewrite Hrun0; do 2 f_equal; lra |].
    split; [rewrite Hrun1; do 2 f_equal; lra |].
    split; [exact (sorted_In _ _ _ Ha0) |]. split; [exact (sorted_In _ _ _ Ha1) |].
    intros x Hx. apply list_elem_of_In in Hx. rewrite <- (sorted_perm values) in Hx.
    apply list_elem_of_lookup in Hx as [i Hi].
    pose proof (lookup_lt_Some _ _ _ Hi) as Hlt.
    rewrite (Permutation_length (sorted_perm values)) in Hlt.
    split.
    + apply (sorted_lookup_le _ (sorted_sorted values) 0%nat i); [lia | exact Ha0 | exact Hi].
    + apply (sorted_lookup_le _ (sorted_sorted values) i l1); [lia | exact Hi | exact Ha1].
Qed.

Lemma percentile_endpoints_witness :
  exists lo hi,
    percentile [3; 1; 2]%R 0 = Ok (Finite lo) /\
    percentile [3; 1; 2]%R 100 = Ok (Finite hi) /\
    In lo [3; 1; 2]%R /\ In hi [3; 1; 2]%R /\
    forall x, In x [3; 1; 2]%R -> (lo <= x <= hi)%R.
Proof. apply (percentile_endpoints [3; 1; 2]%R). discriminate. Defined.



(** X21: [percentile] does not depend on the order of the values. *)
Theorem percentile_permutation (values values' : list R) (pct : R) :
  values ≡ₚ values' -> percentile values pct = percentile values' pct.
Proof.
  intros Hperm. pose proof (Permutation_length Hperm) as Hlen.
  pose proof (sorted_of_perm _ _ Hperm) as Hsort.
  destruct values as [| x1 [| x2 rest]], values' as [| y1 [| y2 rest']];
    simpl in Hlen; try lia.
  - reflexivity.
  - apply Permutation_singleton_l in Hperm. injection Hperm as <-. reflexivity.
  - unfold percentile. rewrite Hsort. reflexivity.
Qed.

Lemma percentile_permutation_witness :
  percentile [3; 1; 2]%R 50 = percentile [1; 2; 3]%R 50.
Proof.
  apply percentile_permutation.
  apply (Permutation_trans (Permutation_swap 1%R 3%R [2%R])).
  apply Permutation_skip, Permutation_swap.
Defined.
